(** * inzown-btn: gesture engine, action resolver and config reader

    A shallow embedding of [inzown-btn.c] and the properties of its
    seconds quantizer, action-name formatter, configuration reader,
    action resolver, gesture loop and start-up code.

    Data model: Linux LP64.  [int] and [unsigned] are 32 bits wide,
    [unsigned long], [unsigned long long] and [uint64_t] are 64 bits wide.
    Integers are values of [Z]; every C operation that can leave the range
    of its type is followed by the reduction into that range.  Signed
    overflow is undefined in ISO C; the embedding takes the two's complement
    result, which is what the compilers used for this program produce.

    C strings are values of [string] that hold the bytes before the
    terminating NUL.  A pointer into a string is the suffix that starts at
    the pointed byte; writing a NUL through such a pointer is taking the
    prefix before it. *)

From Stdlib Require Import ZArith List String Ascii Bool Lia.
Import ListNotations.

Local Open Scope string_scope.
Local Open Scope Z_scope.

(* ================================================================== *)
(** ** Machine integers *)

Module Machine.

Definition INT_MAX : Z := 2147483647.
Definition INT_MIN : Z := -2147483648.
Definition UINT_MAX : Z := 4294967295.
Definition ULONG_MAX : Z := 18446744073709551615.

(** Conversion to [unsigned] / [uint32_t]. *)
Definition u32 (x : Z) : Z := x mod 4294967296.

(** Conversion to [unsigned long] / [unsigned long long] / [uint64_t]. *)
Definition u64 (x : Z) : Z := x mod 18446744073709551616.

(** Conversion to [int]: the value of the same residue in
    [INT_MIN .. INT_MAX]. *)
Definition s32 (x : Z) : Z := (x + 2147483648) mod 4294967296 - 2147483648.

(** [int] arithmetic. *)
Definition int_add (a b : Z) : Z := s32 (a + b).
Definition int_sub (a b : Z) : Z := s32 (a - b).
Definition int_mul (a b : Z) : Z := s32 (a * b).
Definition int_div (a b : Z) : Z := s32 (a ÷ b).
Definition int_rem (a b : Z) : Z := s32 (Z.rem a b).

Definition in_int (x : Z) : Prop := INT_MIN <= x <= INT_MAX.
Definition in_u32 (x : Z) : Prop := 0 <= x <= UINT_MAX.

End Machine.
Import Machine.

(* ================================================================== *)
(** ** Constants and process-wide settings *)

Definition CLICK_TIMEOUT_MS : Z := 400.
Definition HOLD_PRESS_TIMEOUT_MS : Z := CLICK_TIMEOUT_MS.

Inductive PinActivation : Type :=
| PA_UNSPECIFIED
| PA_ACTIVE_LOW
| PA_ACTIVE_HIGH.

(** [enum action_e]; [A_COUNT] is the enum's closing sentinel. *)
Inductive action_e : Type :=
| A_DOWN
| A_UP
| A_CLICK
| A_HOLD
| A_COUNT.

Definition DOWN_VALUE_NAME : string := "DOWN".
Definition UP_VALUE_NAME : string := "UP".
Definition CLICK_NAME_PREFIX : string := "CLICK_".
Definition CLICK_OTHER_VALUE_NAME : string := "CLICK_OTHER".
Definition HOLD_NAME_PREFIX : string := "HOLD_".
Definition HOLD_NAME_SUFFIX : string := "S".
Definition HOLD_OTHER_VALUE_NAME : string := "HOLD_OTHER".
Definition CLICK_COUNT_LIMIT_VALUE_NAME : string := "CLICK_COUNT_LIMIT".

Definition MAX_PATH_LENGTH : Z := 4096.
Definition ACTION_NAME_SIZE : Z := 11.
Definition ABSOLUTE_MAX_CLICK : Z := 99.
Definition ABSOLUTE_MAX_HOLD : Z := 99.
Definition DEFAULT_CLICK_COUNT_LIMIT : Z := 8.
Definition EINVAL : Z := 22.

(** The file-scope variables of the program ([g_button_exported] is only
    used by the exit handler and is left out). *)
Record globals : Type := mkGlobals {
  g_button_pin : Z;
  g_pin_activation : PinActivation;
  g_config_path : string;
  g_full_time : bool;
  g_offset_time : bool;
  g_click_count_limit : Z;
  g_debug : Z
}.

Definition initial_globals : globals :=
  {| g_button_pin := 17;
     g_pin_activation := PA_UNSPECIFIED;
     g_config_path := "/etc/inzown/button.conf";
     g_full_time := false;
     g_offset_time := false;
     g_click_count_limit := DEFAULT_CLICK_COUNT_LIMIT;
     g_debug := 1 |}.

Definition set_full_time (g : globals) (b : bool) : globals :=
  mkGlobals (g_button_pin g) (g_pin_activation g) (g_config_path g)
            b (g_offset_time g) (g_click_count_limit g) (g_debug g).
Definition set_offset_time (g : globals) (b : bool) : globals :=
  mkGlobals (g_button_pin g) (g_pin_activation g) (g_config_path g)
            (g_full_time g) b (g_click_count_limit g) (g_debug g).
Definition set_debug (g : globals) (x : Z) : globals :=
  mkGlobals (g_button_pin g) (g_pin_activation g) (g_config_path g)
            (g_full_time g) (g_offset_time g) (g_click_count_limit g) x.
Definition set_config_path (g : globals) (p : string) : globals :=
  mkGlobals (g_button_pin g) (g_pin_activation g) p
            (g_full_time g) (g_offset_time g) (g_click_count_limit g) (g_debug g).
Definition set_click_count_limit (g : globals) (x : Z) : globals :=
  mkGlobals (g_button_pin g) (g_pin_activation g) (g_config_path g)
            (g_full_time g) (g_offset_time g) x (g_debug g).
Definition set_button_pin (g : globals) (x : Z) : globals :=
  mkGlobals x (g_pin_activation g) (g_config_path g)
            (g_full_time g) (g_offset_time g) (g_click_count_limit g) (g_debug g).
Definition set_pin_activation (g : globals) (a : PinActivation) : globals :=
  mkGlobals (g_button_pin g) a (g_config_path g)
            (g_full_time g) (g_offset_time g) (g_click_count_limit g) (g_debug g).

(* ================================================================== *)
(** ** Seconds quantizer *)

(** [static int seconds(int ticks)]: the four regimes chosen by
    [g_offset_time] and [g_full_time].  [/] and [%] on [int] truncate
    towards zero. *)
Definition seconds (g : globals) (ticks : Z) : Z :=
  if g_offset_time g then
    if g_full_time g then
      int_div (int_add ticks 500) 1000
    else
      let sec := int_div ticks 1000 in
      int_add sec (int_rem (int_add sec 1) 2)
  else
    if g_full_time g then
      int_div ticks 1000
    else
      int_add 1 (int_mul (int_div (int_sub ticks 1000) 2000) 2).

(** The formula the help text and the specification give for the default
    regime, over the integers. *)
Definition odd_seconds_formula (ticks : Z) : Z :=
  1 + ((ticks - 1000) ÷ 2000) * 2.

(* ================================================================== *)
(** ** C strings *)

Definition NUL : ascii := "000"%char.
Definition LF : ascii := "010"%char.
Definition TAB : ascii := "009"%char.
Definition SPACE : ascii := " "%char.
Definition HASH : ascii := "#"%char.
Definition SLASH : ascii := "/"%char.

(** The C string held by a buffer: the bytes before the first NUL. *)
Fixpoint cstr (buf : string) : string :=
  match buf with
  | EmptyString => EmptyString
  | String c rest => if Ascii.eqb c NUL then EmptyString else String c (cstr rest)
  end.

Fixpoint mem_char (c : ascii) (set : string) : bool :=
  match set with
  | EmptyString => false
  | String d rest => Ascii.eqb c d || mem_char c rest
  end.

(** [m = strchr(s, c); if (m) *m = '\0';] *)
Fixpoint truncate_at (c : ascii) (s : string) : string :=
  match s with
  | EmptyString => EmptyString
  | String d rest => if Ascii.eqb d c then EmptyString else String d (truncate_at c rest)
  end.

(** [s + strspn(s, set)] *)
Fixpoint skip_span (set : string) (s : string) : string :=
  match s with
  | EmptyString => EmptyString
  | String d rest => if mem_char d set then skip_span set rest else s
  end.

(** [strpbrk(s, set)]: [None] for a null result, otherwise the bytes
    before the match and the suffix that starts at the match. *)
Fixpoint strpbrk (s : string) (set : string) : option (string * string) :=
  match s with
  | EmptyString => None
  | String d rest =>
      if mem_char d set then Some (EmptyString, s)
      else match strpbrk rest set with
           | Some (pre, suf) => Some (String d pre, suf)
           | None => None
           end
  end.

(** [strncmp(a, b, n) == 0] *)
Fixpoint strncmp_eq (a b : string) (n : nat) : bool :=
  match n with
  | O => true
  | S n' =>
      match a, b with
      | EmptyString, EmptyString => true
      | String x a', String y b' => Ascii.eqb x y && strncmp_eq a' b' n'
      | _, _ => false
      end
  end.

(** The first [n] bytes of a string ([strncpy] into a buffer whose byte
    [n] is then set to NUL). *)
Fixpoint take (n : nat) (s : string) : string :=
  match n, s with
  | O, _ => EmptyString
  | _, EmptyString => EmptyString
  | S n', String c rest => String c (take n' rest)
  end.

(** The suffix after the first [n] bytes; [None] when the string, with
    its terminator, is shorter than that: the pointer is outside the
    array. *)
Fixpoint suffix_at (n : nat) (s : string) : option string :=
  match n, s with
  | O, _ => Some s
  | S _, EmptyString => None
  | S n', String _ rest => suffix_at n' rest
  end.

Definition starts_with (c : ascii) (s : string) : bool :=
  match s with
  | String d _ => Ascii.eqb d c
  | EmptyString => false
  end.

Fixpoint contains_char (c : ascii) (s : string) : bool :=
  match s with
  | EmptyString => false
  | String d rest => Ascii.eqb d c || contains_char c rest
  end.

Fixpoint repeat_char (c : ascii) (n : nat) : string :=
  match n with
  | O => EmptyString
  | S n' => String c (repeat_char c n')
  end.

Definition slen (s : string) : Z := Z.of_nat (String.length s).

(** ** Decimal output: the [%u] conversion *)

Definition digit_char (d : Z) : ascii := ascii_of_nat (48 + Z.to_nat d).

Fixpoint utoa_aux (fuel : nat) (n : Z) (acc : string) : string :=
  match fuel with
  | O => acc
  | S fuel' =>
      let acc' := String (digit_char (n mod 10)) acc in
      if n <? 10 then acc' else utoa_aux fuel' (n / 10) acc'
  end.

(** Twenty digits hold every 64-bit value. *)
Definition utoa (n : Z) : string := utoa_aux 20 n EmptyString.

(** ** Decimal input: [strtoul(s, &end, 10)] *)

Definition isspace (c : ascii) : bool :=
  let n := nat_of_ascii c in
  (Nat.eqb n 32 || (Nat.leb 9 n && Nat.leb n 13))%bool.

Definition digit_value (c : ascii) : option Z :=
  let n := nat_of_ascii c in
  if (Nat.leb 48 n && Nat.leb n 57)%bool then Some (Z.of_nat n - 48) else None.

Fixpoint skip_isspace (s : string) : string :=
  match s with
  | EmptyString => EmptyString
  | String c rest => if isspace c then skip_isspace rest else s
  end.

(** Accumulates the digits at the start of [s]: the value read so far,
    whether a digit was seen, and the unread suffix. *)
Fixpoint read_digits (s : string) (acc : Z) (seen : bool) : Z * bool * string :=
  match s with
  | EmptyString => (acc, seen, s)
  | String c rest =>
      match digit_value c with
      | Some d => read_digits rest (acc * 10 + d) true
      | None => (acc, seen, s)
      end
  end.

(** Result of [strtoul]: the value and [Some rest] when the end pointer
    has moved past the start ([rest] is what it points to), [None] when
    no conversion was made and the end pointer is the start. *)
Definition strtoul (s : string) : Z * option string :=
  let s1 := skip_isspace s in
  let '(neg, s2) :=
    match s1 with
    | String "-"%char r => (true, r)
    | String "+"%char r => (false, r)
    | _ => (false, s1)
    end in
  let '(v, seen, rest) := read_digits s2 0 false in
  if seen then
    if ULONG_MAX <? v then (ULONG_MAX, Some rest)
    else ((if neg then u64 (- v) else v), Some rest)
  else (0, None).

(** [static bool parse_uint(unsigned int *dst, const char *src)]: the
    pair of the returned flag and the value stored in [*dst]. *)
Definition parse_uint (src : string) : bool * Z :=
  match strtoul src with
  | (v, Some EmptyString) => (true, u32 v)
  | (_, _) => (false, 0)
  end.

(* ================================================================== *)
(** ** Configuration reader *)

Definition BUFFER_SIZE : Z := 2 * MAX_PATH_LENGTH + 1.
Definition WHITESPACE_CHARS : string := String SPACE (String TAB EmptyString).

(** The files of the machine: the bytes [fopen] gives access to, or [None]
    when the file cannot be opened.  Every read of an opened file
    succeeds up to the end of the file; a stream whose read fails before
    its end (a directory, an input error) is not described. *)
Definition filesystem : Type := string -> option string.

(** [fgets(buffer, room + 1, f)]: at most [room] bytes, up to and
    including the first newline; the bytes read and the unread rest. *)
Fixpoint fgets (room : nat) (f : string) : string * string :=
  match room, f with
  | O, _ => (EmptyString, f)
  | _, EmptyString => (EmptyString, EmptyString)
  | S room', String c rest =>
      if Ascii.eqb c LF then (String c EmptyString, rest)
      else let (buf, rest') := fgets room' rest in (String c buf, rest')
  end.

(** [while (!feof(f)) { int c = fgetc(f); if (c == '\n') break; }] *)
Fixpoint skip_to_next_line (f : string) : string :=
  match f with
  | EmptyString => EmptyString
  | String c rest => if Ascii.eqb c LF then rest else skip_to_next_line rest
  end.

(** [buffer[i]] of a buffer that was zeroed before it was filled. *)
Definition byte_at (i : nat) (buffer : string) : ascii :=
  match String.get i buffer with
  | Some c => c
  | None => NUL
  end.

(** [static bool read_line(FILE *f, char *buffer, size_t n)]: [None] is
    the [false] result; otherwise the buffer and the unread rest of the
    file. *)
Definition read_line (f : string) (n : nat) : option (string * string) :=
  match f with
  | EmptyString => None
  | String _ _ =>
      let (buffer, rest) := fgets (n - 1) f in
      let b := byte_at (n - 2) buffer in
      if (negb (Ascii.eqb b NUL) && negb (Ascii.eqb b LF))%bool
      then Some (buffer, skip_to_next_line rest)
      else Some (buffer, rest)
  end.

(** The line as the parser sees it: cut at the first ['#'], then at the
    first newline, then advanced over leading blanks (the pointer [p]). *)
Definition strip_line (buffer : string) : string :=
  let line := cstr buffer in
  let line := truncate_at HASH line in
  let line := truncate_at LF line in
  skip_span WHITESPACE_CHARS line.

Record parsed_line : Type := mkParsed {
  pl_name : string;
  pl_value : string;
  pl_argument : string
}.

(** The body of [if (strlen(p) > 1) { ... }] up to the test of [name];
    [want_args] is [args != NULL]. *)
Definition split_line (p : string) (want_args : bool) : parsed_line :=
  match strpbrk p WHITESPACE_CHARS with
  | Some (name, t) =>
      let t := skip_span WHITESPACE_CHARS t in
      if want_args then
        match strpbrk t WHITESPACE_CHARS with
        | Some (value, a1) =>
            let a2 := skip_span WHITESPACE_CHARS a1 in
            mkParsed name value a2
        | None => mkParsed name t EmptyString
        end
      else mkParsed name t EmptyString
  | None => mkParsed (take (Z.to_nat BUFFER_SIZE) p) EmptyString EmptyString
  end.

(** Messages written to standard error, with the line number. *)
Inductive warning : Type :=
| TooLongValue (line : Z)
| UnexpectedSyntax (line : Z).

(** What one line does to the scan. *)
Inductive line_outcome : Type :=
| LineSkipped
| LineOtherName
| LineAccepted (value argument : string)
| LineTooLong
| LineUnexpectedSyntax.

Definition classify_line (buffer value_name : string) (want_args : bool) (n : Z)
  : line_outcome :=
  let p := strip_line buffer in
  if 1 <? slen p then
    let pl := split_line p want_args in
    if negb (slen (pl_name pl) =? 0) then
      if String.eqb (pl_name pl) value_name then
        let lenValue := slen (pl_value pl) in
        let lenArgs := slen (pl_argument pl) in
        if ((lenValue <? n) && (lenArgs <? n))%bool
        then LineAccepted (pl_value pl) (pl_argument pl)
        else LineTooLong
      else LineOtherName
    else LineUnexpectedSyntax
  else LineSkipped.

(** The [while (f && !feof(f))] loop.  Each turn reads at least one byte,
    so [fuel] above the length of the file never runs out. *)
Fixpoint scan_config (fuel : nat) (f value_name : string) (want_args : bool)
         (n : Z) (currentLine : Z) : option (string * string) * list warning :=
  match fuel with
  | O => (None, [])
  | S fuel' =>
      match read_line f (Z.to_nat BUFFER_SIZE) with
      | None => (None, [])
      | Some (buffer, rest) =>
          let currentLine := currentLine + 1 in
          match classify_line buffer value_name want_args n with
          | LineAccepted value argument => (Some (value, argument), [])
          | LineTooLong =>
              let (r, w) := scan_config fuel' rest value_name want_args n currentLine in
              (r, TooLongValue currentLine :: w)
          | LineUnexpectedSyntax =>
              let (r, w) := scan_config fuel' rest value_name want_args n currentLine in
              (r, UnexpectedSyntax currentLine :: w)
          | LineSkipped | LineOtherName =>
              scan_config fuel' rest value_name want_args n currentLine
          end
      end
  end.

Record lookup : Type := mkLookup {
  lk_found : bool;
  lk_dst : string;
  lk_args : string;
  lk_warnings : list warning
}.

(** [static void read_config_value(conf, value_name, dst, args, n,
    default_value)]. *)
Definition read_config_value (fs : filesystem) (conf value_name : string)
           (want_args : bool) (n : Z) (default_value : string) : lookup :=
  match fs conf with
  | None => mkLookup false default_value EmptyString []
  | Some f =>
      match scan_config (S (String.length f)) f value_name want_args n 0 with
      | (Some (value, argument), w) => mkLookup true value argument w
      | (None, w) => mkLookup false default_value EmptyString w
      end
  end.

(** A line of the file binds [value_name]: some line read by the loop
    parses to that name. *)
Fixpoint key_present (fuel : nat) (f value_name : string) (want_args : bool) : bool :=
  match fuel with
  | O => false
  | S fuel' =>
      match read_line f (Z.to_nat BUFFER_SIZE) with
      | None => false
      | Some (buffer, rest) =>
          let p := strip_line buffer in
          ((1 <? slen p) && String.eqb (pl_name (split_line p want_args)) value_name
           || key_present fuel' rest value_name want_args)%bool
      end
  end.

Definition config_has_key (fs : filesystem) (conf value_name : string)
           (want_args : bool) : bool :=
  match fs conf with
  | None => false
  | Some f => key_present (S (String.length f)) f value_name want_args
  end.

(** Some line binds [value_name] to a value and argument that fit in [n]
    bytes with their terminators. *)
Fixpoint fitting_binding_present (fuel : nat) (f value_name : string)
         (want_args : bool) (n : Z) : bool :=
  match fuel with
  | O => false
  | S fuel' =>
      match read_line f (Z.to_nat BUFFER_SIZE) with
      | None => false
      | Some (buffer, rest) =>
          let p := strip_line buffer in
          let pl := split_line p want_args in
          ((1 <? slen p) && String.eqb (pl_name pl) value_name
             && (slen (pl_value pl) <? n) && (slen (pl_argument pl) <? n)
           || fitting_binding_present fuel' rest value_name want_args n)%bool
      end
  end.

Definition config_has_fitting_binding (fs : filesystem) (conf value_name : string)
           (want_args : bool) (n : Z) : bool :=
  match fs conf with
  | None => false
  | Some f => fitting_binding_present (S (String.length f)) f value_name want_args n
  end.

(** [static bool read_config_uint(conf, value_name, dst, default_value)]:
    the returned flag and the value stored in [*dst]. *)
Definition read_config_uint (fs : filesystem) (conf value_name : string)
           (default_value : Z) : bool * Z :=
  let r := read_config_value fs conf value_name false 12 "#" in
  if starts_with HASH (lk_dst r) then (false, default_value)
  else match parse_uint (lk_dst r) with
       | (true, x) => (true, x)
       | (false, _) => (false, default_value)
       end.

(* ================================================================== *)
(** ** Action names and action resolver *)

(** [static int get_action_name(action, action_name, click_count,
    hold_time)]: the string left in [action_name]. *)
Definition get_action_name (g : globals) (action : action_e)
           (click_count hold_time : Z) : string :=
  match action with
  | A_DOWN => DOWN_VALUE_NAME
  | A_UP => UP_VALUE_NAME
  | A_CLICK =>
      if click_count <=? ABSOLUTE_MAX_CLICK
      then (CLICK_NAME_PREFIX ++ utoa click_count)%string
      else CLICK_OTHER_VALUE_NAME
  | A_HOLD =>
      let timer := u32 (seconds g (s32 hold_time)) in
      if timer <=? ABSOLUTE_MAX_HOLD
      then (HOLD_NAME_PREFIX ++ utoa timer ++ HOLD_NAME_SUFFIX)%string
      else HOLD_OTHER_VALUE_NAME
  | A_COUNT => EmptyString
  end.

Record action_script : Type := mkActionScript {
  as_buffer : string;
  as_args : string;
  as_warnings : list warning
}.

(** [static void get_action_script(action, action_name, buffer, args,
    buff_length)]. *)
Definition get_action_script (fs : filesystem) (g : globals) (action : action_e)
           (action_name : string) (buff_length : Z) : action_script :=
  let r1 := read_config_value fs (g_config_path g) action_name true buff_length "#" in
  let '(buffer, args, w) :=
    if starts_with HASH (lk_dst r1) then
      match action with
      | A_CLICK =>
          let r2 := read_config_value fs (g_config_path g) CLICK_OTHER_VALUE_NAME
                                      true buff_length "#" in
          (lk_dst r2, lk_args r2, (lk_warnings r1 ++ lk_warnings r2)%list)
      | A_HOLD =>
          let r2 := read_config_value fs (g_config_path g) HOLD_OTHER_VALUE_NAME
                                      true buff_length "#" in
          (lk_dst r2, lk_args r2, (lk_warnings r1 ++ lk_warnings r2)%list)
      | _ => (lk_dst r1, lk_args r1, lk_warnings r1)
      end
    else (lk_dst r1, lk_args r1, lk_warnings r1) in
  if starts_with HASH buffer
  then mkActionScript EmptyString args w
  else mkActionScript buffer args w.

(** [strncat(dest, src, k)] *)
Definition strncat (dest src : string) (k : Z) : string :=
  (dest ++ take (Z.to_nat k) src)%string.

Record script_path : Type := mkScriptPath {
  sp_return : Z;
  sp_action_name : string;
  sp_script : string;
  sp_args : string;
  sp_warnings : list warning
}.

Section Resolver.

(** What [dirname] of the C library leaves in the buffer it is given;
    its return value is not used by the program. *)
Variable dirname_buffer : string -> string.

Variable fs : filesystem.

(** [static int get_action_script_path(action, action_name, click_count,
    hold_time, script, args, n)]. *)
Definition get_action_script_path (g : globals) (action : action_e)
           (click_count hold_time : Z) (n : Z) : script_path :=
  match action with
  | A_COUNT => mkScriptPath (- EINVAL) EmptyString EmptyString EmptyString []
  | _ =>
      let action_name := get_action_name g action click_count hold_time in
      if slen action_name =? 0 then
        mkScriptPath (- EINVAL) action_name EmptyString EmptyString []
      else
        let r := get_action_script fs g action action_name MAX_PATH_LENGTH in
        let action_script := as_buffer r in
        let arguments := as_args r in
        if slen action_script =? 0 then
          mkScriptPath 0 action_name EmptyString EmptyString (as_warnings r)
        else
          let script :=
            if starts_with SLASH action_script then
              take (Z.to_nat (n - 2)) action_script
            else
              let sizeof_tmp := MAX_PATH_LENGTH + 1 in
              let tmp := take (Z.to_nat (sizeof_tmp - 1)) (g_config_path g) in
              let tmp := dirname_buffer tmp in
              let tmp := strncat tmp "/" (sizeof_tmp - 1 - slen tmp) in
              let tmp := strncat tmp action_script (sizeof_tmp - 1 - slen tmp) in
              take (Z.to_nat (n - 1)) tmp in
          let args := take (Z.to_nat (n - 1)) arguments in
          mkScriptPath (slen script) action_name script args (as_warnings r)
  end.

(** What [execute_action] ends in. *)
Inductive exec_result : Type :=
| ExecError (n : Z)
| ExecNoCommand
| ExecArgumentFailure (result : Z)
| ExecSystem (cmd : string).

(** [static void execute_action(action, click_count, hold_time)]. *)
Definition execute_action (g : globals) (action : action_e)
           (click_count hold_time : Z) : exec_result :=
  let sizeof_cmd := MAX_PATH_LENGTH + 64 in
  let r := get_action_script_path g action click_count hold_time sizeof_cmd in
  let n := sp_return r in
  if n <? 0 then ExecError n
  else if n =? 0 then ExecNoCommand
  else
    let cmd := sp_script r in
    let arg := sp_args r in
    let remainingSpace := sizeof_cmd - n + 1 in
    let appended :=
      match action with
      | A_CLICK =>
          if slen arg =? 0 then (" " ++ utoa click_count)%string
          else (" " ++ arg)%string
      | A_HOLD =>
          if slen arg =? 0
          then (" " ++ utoa click_count ++ " " ++ utoa hold_time)%string
          else (" " ++ arg)%string
      | _ => EmptyString
      end in
    let result := slen appended in
    if remainingSpace <=? result then ExecArgumentFailure result
    else ExecSystem (cmd ++ appended)%string.

End Resolver.

(** An instance of [dirname_buffer] for paths without repeated or
    trailing slashes: the buffer is cut before its last slash, a leading
    slash is kept, and a buffer without a slash is left as it is. *)
Fixpoint cut_last_slash (s : string) : option string :=
  match s with
  | EmptyString => None
  | String c rest =>
      match cut_last_slash rest with
      | Some pre => Some (String c pre)
      | None => if Ascii.eqb c SLASH then Some EmptyString else None
      end
  end.

Definition dirname_plain (tmp : string) : string :=
  match cut_last_slash tmp with
  | Some EmptyString => "/"
  | Some pre => pre
  | None => tmp
  end.

(** A file system that holds one file. *)
Definition single_file (path content : string) : filesystem :=
  fun p => if String.eqb p path then Some content else None.

(** The text of a file made of the given lines, each closed by a
    newline. *)
Fixpoint file_of_lines (ls : list string) : string :=
  match ls with
  | [] => EmptyString
  | l :: rest => (l ++ String LF (file_of_lines rest))%string
  end.

(** A line that [read_line] takes in whole: it holds no newline, and the
    buffer has room for it and the newline behind it. *)
Definition fits_buffer (l : string) : Prop :=
  contains_char LF l = false /\
  (String.length l < Z.to_nat BUFFER_SIZE - 1)%nat.

(** The line is parsed, and the name parsed from it is [key]. *)
Definition line_names (l key : string) (want_args : bool) : bool :=
  let p := strip_line l in
  ((1 <? slen p) && String.eqb (pl_name (split_line p want_args)) key)%bool.

(* ================================================================== *)
(** ** Gesture loop *)

(** The local variables of [run] that live across turns of its loop. *)
Record gesture : Type := mkGesture {
  pressed_at : Z;
  timer_running : bool;
  button_down : bool;
  num_pressed : Z
}.

Definition gesture_start : gesture := mkGesture 0 false false 0.

Record itimerspec : Type := mkItimerspec {
  it_interval_sec : Z;
  it_interval_nsec : Z;
  it_value_sec : Z;
  it_value_nsec : Z
}.

(** What a turn of the loop does to the outside: a call of
    [execute_action] (through [onDown], [onUp], [onTimesClicked],
    [onHold]) or [timerfd_settime(timerfd, 0, &its, 0)]. *)
Inductive effect : Type :=
| Execute (action : action_e) (click_count hold_time : Z)
| TimerSet (its : itimerspec).

(** What the button descriptor gives when [poll] reports [POLLPRI]: the
    clock at that moment, the result of [read], the bytes read, and
    whether the rewind succeeded. *)
Record button_reading : Type := mkReading {
  br_timestamp : Z;
  br_read : Z;
  br_buff : string;
  br_rewound : bool
}.

(** One return of [poll]: its result, the button reading when the button
    descriptor is ready, the result of reading the timer when the timer
    descriptor is ready. *)
Record wakeup : Type := mkWakeup {
  wk_result : Z;
  wk_button : option button_reading;
  wk_timer : option Z
}.

Inductive loop_exit : Type :=
| LoopBreak
| LoopReturn.

Definition onDown : effect := Execute A_DOWN 0 0.
Definition onUp : effect := Execute A_UP 0 0.
Definition onTimesClicked (num_presses : Z) : effect := Execute A_CLICK num_presses 0.
Definition onHold (num_presses time_held : Z) : effect :=
  Execute A_HOLD num_presses (u32 time_held).

Definition click_timer : itimerspec :=
  mkItimerspec 0 0 0 (CLICK_TIMEOUT_MS * 1000 * 1000).

(** The [if (pfd[FD_BUTTON].revents & POLLPRI)] block; [None] is [break]. *)
Definition handle_button (g : globals) (s : gesture) (r : button_reading)
  : option (gesture * list effect) :=
  let timestamp := br_timestamp r in
  if br_read r =? 0 then None
  else if negb (br_rewound r) then None
  else
    let pressed := fst (strtoul (br_buff r)) in
    if negb (pressed =? 0) then
      let n :=
        if negb (timer_running s) then 1
        else if ((g_click_count_limit g =? 0)
                 || (num_pressed s <? g_click_count_limit g))%bool
             then u32 (num_pressed s + 1)
             else num_pressed s in
      Some (mkGesture timestamp true true n, [onDown; TimerSet click_timer])
    else if button_down s then
      let s' := mkGesture (pressed_at s) (timer_running s) false (num_pressed s) in
      if negb (pressed_at s =? 0) then
        if HOLD_PRESS_TIMEOUT_MS <=? u64 (timestamp - pressed_at s) then
          Some (s', [onUp; onHold (num_pressed s) (u64 (timestamp - pressed_at s))])
        else Some (s', [onUp])
      else Some (s', [onUp])
    else Some (s, []).

(** The [if (pfd[FD_TIMER].revents & POLLIN)] block; [None] is the
    [return errno] after a short read. *)
Definition handle_timer (s : gesture) (n : Z) : option (gesture * list effect) :=
  if negb (n =? 8) then None
  else
    let effs := if negb (button_down s) then [onTimesClicked (num_pressed s)] else [] in
    Some (mkGesture (pressed_at s) false (button_down s) (num_pressed s), effs).

(** One turn of [for (;;)]. *)
Definition iteration (g : globals) (s : gesture) (w : wakeup)
  : gesture * list effect * option loop_exit :=
  if wk_result w =? -1 then (s, [], Some LoopBreak)
  else if wk_result w =? 0 then (s, [], None)
  else
    let after_button :=
      match wk_button w with
      | Some r => handle_button g s r
      | None => Some (s, [])
      end in
    match after_button with
    | None => (s, [], Some LoopBreak)
    | Some (s1, e1) =>
        match wk_timer w with
        | Some n =>
            match handle_timer s1 n with
            | None => (s1, e1, Some LoopReturn)
            | Some (s2, e2) => (s2, (e1 ++ e2)%list, None)
            end
        | None => (s1, e1, None)
        end
    end.

(** The loop of [run] over the successive returns of [poll]: the last
    state, the effects of each turn, and how the loop was left, if it
    was. *)
Fixpoint run_loop (g : globals) (s : gesture) (ws : list wakeup)
  : gesture * list (list effect) * option loop_exit :=
  match ws with
  | [] => (s, [], None)
  | w :: ws' =>
      match iteration g s w with
      | (s', effs, Some e) => (s', [effs], Some e)
      | (s', effs, None) =>
          let '(s'', rest, e) := run_loop g s' ws' in
          (s'', effs :: rest, e)
      end
  end.

Definition final_state (g : globals) (ws : list wakeup) : gesture :=
  fst (fst (run_loop g gesture_start ws)).

Definition turns (g : globals) (ws : list wakeup) : list (list effect) :=
  snd (fst (run_loop g gesture_start ws)).

(** Everything the loop did, in order. *)
Definition trace (g : globals) (ws : list wakeup) : list effect :=
  List.concat (turns g ws).

(** Wakeups as the properties use them. *)
Definition edge_ready (timestamp : Z) (buff : string) : wakeup :=
  mkWakeup 1 (Some (mkReading timestamp (slen buff) buff true)) None.
Definition timer_fired : wakeup := mkWakeup 1 None (Some 8).
Definition pressed_edge (timestamp : Z) : wakeup :=
  edge_ready timestamp (String "1" (String LF EmptyString)).
Definition released_edge (timestamp : Z) : wakeup :=
  edge_ready timestamp (String "0" (String LF EmptyString)).

(** The button descriptor was ready with a readable, nonzero level. *)
Definition is_down_edge (w : wakeup) : bool :=
  (negb (wk_result w =? -1) && negb (wk_result w =? 0) &&
   match wk_button w with
   | Some r => negb (br_read r =? 0) && br_rewound r
               && negb (fst (strtoul (br_buff r)) =? 0)
   | None => false
   end)%bool.

(** Every HOLD action in [l] stands directly behind an UP action. *)
Definition hold_follows_up (l : list effect) : Prop :=
  forall pre click_count hold_time post,
    l = (pre ++ Execute A_HOLD click_count hold_time :: post)%list ->
    exists pre', pre = (pre' ++ [onUp])%list.

(** A list of effects in which a HOLD action only occurs as the second
    entry of a pair UP, HOLD. *)
Inductive up_then_hold : list effect -> Prop :=
| uth_nil : up_then_hold []
| uth_pair (click_count hold_time : Z) (l : list effect) :
    up_then_hold l ->
    up_then_hold (onUp :: Execute A_HOLD click_count hold_time :: l)
| uth_other (e : effect) (l : list effect) :
    (forall click_count hold_time, e <> Execute A_HOLD click_count hold_time) ->
    up_then_hold l ->
    up_then_hold (e :: l).

(** The relation between the press counter, the timer flag and the
    effects so far that the loop keeps, [k] turns after its start. *)
Definition count_invariant (g : globals) (k : nat) (s : gesture) (tr : list effect)
  : Prop :=
  0 <= num_pressed s /\
  (g_click_count_limit g = 0 -> num_pressed s <= Z.of_nat k) /\
  (g_click_count_limit g <> 0 -> num_pressed s <= g_click_count_limit g) /\
  (timer_running s = true -> 1 <= num_pressed s) /\
  (In onDown tr -> 1 <= num_pressed s) /\
  (~ In onDown tr -> num_pressed s = 0 /\ timer_running s = false).

(* ================================================================== *)
(** ** Start-up: command line and environment *)

Record arg_state : Type := mkArgState {
  ar_globals : globals;
  conf_path_specified : bool;
  click_count_limit_specified : bool
}.

(** The [for (i=1; i<argc; ++i)] loop of [main] over [argv[i..]]: the
    exit code of an early [return], or the state after the last
    argument. *)
Fixpoint parse_args (args : list string) (st : arg_state) : Z + arg_state :=
  match args with
  | [] => inr st
  | a :: rest =>
      let g := ar_globals st in
      let cps := conf_path_specified st in
      let ccls := click_count_limit_specified st in
      if String.eqb a "--help" then inl 0
      else if String.eqb a "--version" then inl 0
      else if String.eqb a "--full-time" then
        parse_args rest (mkArgState (set_full_time g true) cps ccls)
      else if String.eqb a "--offset-time" then
        parse_args rest (mkArgState (set_offset_time g true) cps ccls)
      else if String.eqb a "--help-time" then inl 0
      else if String.eqb a "--debug" then
        match rest with
        | v :: rest' =>
            match parse_uint v with
            | (true, x) => parse_args rest' (mkArgState (set_debug g x) cps ccls)
            | (false, _) => parse_args rest st
            end
        | [] => inl 1
        end
      else if String.eqb a "-q" then
        parse_args rest (mkArgState (set_debug g 0) cps ccls)
      else if String.eqb a "--conf" then
        match rest with
        | v :: rest' =>
            parse_args rest'
              (mkArgState (set_config_path g (take (Z.to_nat MAX_PATH_LENGTH) v)) true ccls)
        | [] => inl 1
        end
      else if (String.eqb a "--click-count-limit" || String.eqb a "-n")%bool then
        match rest with
        | v :: rest' =>
            match parse_uint v with
            | (true, x) =>
                parse_args rest' (mkArgState (set_click_count_limit g x) cps true)
            | (false, _) => inl 1
            end
        | [] => inl 1
        end
      else if String.eqb a "--gpio" then
        match rest with
        | v :: rest' =>
            match parse_uint v with
            | (true, x) => parse_args rest' (mkArgState (set_button_pin g (s32 x)) cps ccls)
            | (false, _) => inl 1
            end
        | [] => inl 1
        end
      else if String.eqb a "--active-low" then
        parse_args rest (mkArgState (set_pin_activation g PA_ACTIVE_LOW) cps ccls)
      else if String.eqb a "--active-high" then
        parse_args rest (mkArgState (set_pin_activation g PA_ACTIVE_HIGH) cps ccls)
      else inl 1
  end.

Definition ENV_PREFIX : string := "INZOWN_BTN_CFG=".

(** The [for (i=0; envp[i] != NULL; ++i)] loop of [main]: the
    configuration path after it, or [None] when [&envp[i][16]] lies
    outside the string [envp[i]]. *)
Fixpoint scan_environment (envp : list string) (config_path : string)
  : option string :=
  match envp with
  | [] => Some config_path
  | e :: rest =>
      if strncmp_eq ENV_PREFIX e 16 then
        match suffix_at 16 e with
        | Some cfg =>
            let sizeof_path := MAX_PATH_LENGTH + 1 in
            scan_environment rest (take (Z.to_nat (sizeof_path - 1)) cfg)
        | None => None
        end
      else scan_environment rest config_path
  end.

(** How [main] goes on. *)
Inductive main_result : Type :=
| MainReturn (code : Z)
| MainOutOfBounds
| MainRun (g : globals).

(** [int main(int argc, char **argv, char **envp)] up to the call of
    [run]; [argv] holds the program name first. *)
Definition main (fs : filesystem) (argv envp : list string) : main_result :=
  match parse_args (tl argv) (mkArgState initial_globals false false) with
  | inl code => MainReturn code
  | inr st =>
      let g := ar_globals st in
      let path :=
        if negb (conf_path_specified st)
        then scan_environment envp (g_config_path g)
        else Some (g_config_path g) in
      match path with
      | None => MainOutOfBounds
      | Some p =>
          let g := set_config_path g p in
          if negb (click_count_limit_specified st) then
            let '(_, limit) :=
              read_config_uint fs (g_config_path g) CLICK_COUNT_LIMIT_VALUE_NAME
                               (g_click_count_limit g) in
            MainRun (set_click_count_limit g limit)
          else MainRun g
      end
  end.

(* ================================================================== *)
(** ** Auxiliary definitions for the further properties *)

(** The sign step of [strtoul], on the string left after the blanks. *)
Definition strip_sign (s1 : string) : bool * string :=
  match s1 with
  | String "-"%char r => (true, r)
  | String "+"%char r => (false, r)
  | _ => (false, s1)
  end.

(** Every byte of [s] satisfies [p]. *)
Fixpoint all_chars (p : ascii -> bool) (s : string) : bool :=
  match s with
  | EmptyString => true
  | String c rest => (p c && all_chars p rest)%bool
  end.

(** A byte that can stand in a name or a value of a configuration line:
    not NUL, not ['#'], not a newline, not a blank. *)
Definition word_char (c : ascii) : bool :=
  negb (Ascii.eqb c NUL || Ascii.eqb c HASH || Ascii.eqb c LF
        || mem_char c WHITESPACE_CHARS).

(** A byte that can stand in the argument of a configuration line: not
    NUL, not ['#'], not a newline. *)
Definition text_char (c : ascii) : bool :=
  negb (Ascii.eqb c NUL || Ascii.eqb c HASH || Ascii.eqb c LF).

(** The line that binds [key] to [value] with the argument [arg], as one
    writes it in the file. *)
Definition binding_line (key value arg : string) : string :=
  (key ++ String SPACE (value ++ String SPACE arg))%string.

(** The key that [get_action_script] falls back to when the action's own
    name has no usable binding. *)
Definition fallback_name (action : action_e) : option string :=
  match action with
  | A_CLICK => Some CLICK_OTHER_VALUE_NAME
  | A_HOLD => Some HOLD_OTHER_VALUE_NAME
  | _ => None
  end.

Definition not_blank (c : ascii) : bool := negb (mem_char c WHITESPACE_CHARS).

Definition is_down_action (e : effect) : bool :=
  match e with
  | Execute A_DOWN _ _ => true
  | _ => false
  end.

Definition is_up_action (e : effect) : bool :=
  match e with
  | Execute A_UP _ _ => true
  | _ => false
  end.

(** How many entries of [l] satisfy [p]. *)
Definition count_effects (p : effect -> bool) (l : list effect) : nat :=
  List.length (filter p l).

(** A list of effects in which a DOWN action and the arming of the timer
    only occur together, as the pair DOWN, arm. *)
Inductive down_then_arm : list effect -> Prop :=
| dta_nil : down_then_arm []
| dta_pair (l : list effect) :
    down_then_arm l -> down_then_arm (onDown :: TimerSet click_timer :: l)
| dta_other (e : effect) (l : list effect) :
    is_down_action e = false ->
    (forall its, e <> TimerSet its) ->
    down_then_arm l ->
    down_then_arm (e :: l).

(** Every DOWN action in [l] is directly followed by the arming of the
    click timer, and the timer is armed nowhere else. *)
Definition down_arms_timer (l : list effect) : Prop :=
  (forall pre click_count hold_time post,
      l = (pre ++ Execute A_DOWN click_count hold_time :: post)%list ->
      exists post', post = TimerSet click_timer :: post') /\
  (forall pre its post,
      l = (pre ++ TimerSet its :: post)%list ->
      its = click_timer /\ exists pre', pre = (pre' ++ [onDown])%list).

(** The press counts that CLICK and HOLD actions may carry under the
    click limit of [g]. *)
Definition count_within_limit (g : globals) (e : effect) : Prop :=
  match e with
  | Execute A_CLICK c h => 0 <= c <= g_click_count_limit g /\ h = 0
  | Execute A_HOLD c h => 1 <= c <= g_click_count_limit g /\ in_u32 h
  | _ => True
  end.

(** What handling the option [a] may change in the state of the argument
    loop: the configuration path only for [--conf], the click limit only
    for [-n] and [--click-count-limit], and the limit stays an
    [unsigned] value. *)
Definition option_step (a : string) (st st1 : arg_state) : Prop :=
  (a <> "--conf" ->
   conf_path_specified st1 = conf_path_specified st /\
   g_config_path (ar_globals st1) = g_config_path (ar_globals st)) /\
  (a <> "-n" -> a <> "--click-count-limit" ->
   click_count_limit_specified st1 = click_count_limit_specified st /\
   g_click_count_limit (ar_globals st1) = g_click_count_limit (ar_globals st)) /\
  (in_u32 (g_click_count_limit (ar_globals st)) ->
   in_u32 (g_click_count_limit (ar_globals st1))).

(* ================================================================== *)
(** ** Clock *)

Definition s64 (x : Z) : Z :=
  (x + 9223372036854775808) mod 18446744073709551616 - 9223372036854775808.

Record timespec : Type := mkTimespec {
  tv_sec : Z;
  tv_nsec : Z
}.

(** [static timestamp_ms_t get_timestamp_ms(void)], on the reading [tp]
    that [clock_gettime(CLOCK_MONOTONIC, &tp)] gives: the sum is formed in
    [long] and converted to [unsigned long long]. *)
Definition get_timestamp_ms (tp : timespec) : Z :=
  u64 (s64 (s64 (tv_sec tp * 1000) + s64 (tv_nsec tp ÷ 1000000))).

(** A reading of the monotonic clock: nanoseconds below one second, and
    seconds that leave the milliseconds within [long]. *)
Definition valid_timespec (tp : timespec) : Prop :=
  0 <= tv_sec tp <= 9223372036854774 /\ 0 <= tv_nsec tp < 1000000000.

(** [a] is not later than [b]. *)
Definition timespec_le (a b : timespec) : Prop :=
  tv_sec a < tv_sec b \/ (tv_sec a = tv_sec b /\ tv_nsec a <= tv_nsec b).

(* ================================================================== *)
(** ** GPIO through sysfs *)



Inductive open_mode : Type :=
| O_RDONLY
| O_WRONLY.

(** The calls of the operating system that the GPIO functions make, with
    their arguments; [SysWrite] holds the bytes handed to [write]. *)
Inductive syscall : Type :=
| SysStat (path : string)
| SysOpen (path : string) (mode : open_mode)
| SysWrite (fd : Z) (bytes : string)
| SysClose (fd : Z)
| SysUsleep (usec : Z).

(** [static int gpio_is_pin_valid(int pin)] *)
Definition gpio_is_pin_valid (pin : Z) : bool := ((0 <=? pin) && (pin <? 100))%bool.

(** The [%d] conversion. *)
Definition itoa (n : Z) : string :=
  if n <? 0 then String "-" (utoa (- n)) else utoa n.

(** [snprintf(buf, size, ...)]: what is left in [buf] of the formatted
    text. *)
Definition snprintf (size : Z) (text : string) : string :=
  take (Z.to_nat (size - 1)) text.

Definition NUL_BYTE : string := String NUL EmptyString.

Section Sysfs.

(** The operating system: a state and the results of the calls in it. *)
Variable world : Type.
Variable os_stat : world -> string -> Z * world.
Variable os_open : world -> string -> open_mode -> Z * world.
Variable os_write : world -> Z -> string -> Z * world.
Variable os_close : world -> Z -> Z * world.
Variable os_usleep : world -> Z -> world.

(** A computation in the operating system: its result, the calls it
    made, and the state it leaves. *)
Definition io (A : Type) : Type := world -> A * list syscall * world.

Definition io_ret {A : Type} (a : A) : io A := fun w => (a, [], w).

Definition io_bind {A B : Type} (m : io A) (k : A -> io B) : io B :=
  fun w =>
    let '(a, log1, w1) := m w in
    let '(b, log2, w2) := k a w1 in
    (b, (log1 ++ log2)%list, w2).

Local Notation "x <- m ;; k" := (io_bind m (fun x => k))
  (at level 61, m at next level, right associativity).

Definition sys_stat (path : string) : io Z :=
  fun w => let (r, w') := os_stat w path in (r, [SysStat path], w').
Definition sys_open (path : string) (mode : open_mode) : io Z :=
  fun w => let (r, w') := os_open w path mode in (r, [SysOpen path mode], w').
Definition sys_write (fd : Z) (bytes : string) : io Z :=
  fun w => let (r, w') := os_write w fd bytes in (r, [SysWrite fd bytes], w').
Definition sys_close (fd : Z) : io Z :=
  fun w => let (r, w') := os_close w fd in (r, [SysClose fd], w').
Definition sys_usleep (usec : Z) : io unit :=
  fun w => (tt, [SysUsleep usec], os_usleep w usec).

(** [static int gpio_export(int pin)] *)
Definition gpio_export (pin : Z) : io Z :=
  if negb (gpio_is_pin_valid pin) then io_ret (-1)
  else
    let gpio := snprintf 64 ("/sys/class/gpio/gpio" ++ itoa pin) in
    st <- sys_stat gpio ;;
    if negb (st =? 0) then
      fd <- sys_open "/sys/class/gpio/export" O_WRONLY ;;
      if fd =? -1 then io_ret (-1)
      else
        let str_pin := snprintf 3 (itoa pin) in
        let n := slen str_pin + 1 in
        result <- sys_write fd (str_pin ++ NUL_BYTE) ;;
        if negb (s32 result =? n) then
          _ <- sys_close fd ;; io_ret (-1)
        else
          result <- sys_close fd ;;
          if negb (result =? 0) then io_ret (-1)
          else _ <- sys_usleep 100000 ;; io_ret 1
    else io_ret 0.





(** [static int gpio_close(int fd)] *)
Definition gpio_close (fd : Z) : io Z :=
  err <- sys_close fd ;;
  if negb (err =? 0) then io_ret (-1) else io_ret 0.

End Sysfs.

(** What [gpio_export] and [gpio_unexport] may ask of the operating
    system for [pin], [control] being the export or unexport file. *)
Definition export_call_ok (control : string) (pin : Z) (c : syscall) : Prop :=
  match c with
  | SysStat path => path = ("/sys/class/gpio/gpio" ++ utoa pin)%string
  | SysOpen path mode => path = control /\ mode = O_WRONLY
  | SysWrite _ bytes => bytes = (utoa pin ++ NUL_BYTE)%string
  | SysClose _ => True
  | SysUsleep usec => usec = 100000
  end.


(* ================================================================== *)
(** * Properties *)


(** ** Machine integers *)

Lemma s32_id (x : Z) : in_int x -> s32 x = x.
Proof.
  unfold in_int, INT_MIN, INT_MAX, s32. intros H.
  rewrite Z.mod_small by lia. lia.
Qed.

Lemma u32_id (x : Z) : in_u32 x -> u32 x = x.
Proof.
  unfold in_u32, UINT_MAX, u32. intros H. apply Z.mod_small. lia.
Qed.

Lemma u32_range (x : Z) : in_u32 (u32 x).
Proof.
  unfold in_u32, UINT_MAX, u32.
  pose proof (Z.mod_pos_bound x 4294967296 ltac:(lia)). lia.
Qed.

Lemma quot_bounds (a b : Z) :
  0 <= a -> 0 < b -> 0 <= a ÷ b /\ b * (a ÷ b) <= a.
Proof.
  intros Ha Hb. split.
  - apply Z.quot_pos; lia.
  - apply Z.mul_quot_le; lia.
Qed.

Lemma quot_small_negative (a b : Z) : - b < a <= 0 -> 0 < b -> a ÷ b = 0.
Proof.
  intros Ha Hb.
  rewrite <- (Z.opp_involutive a), Z.quot_opp_l by lia.
  rewrite Z.quot_small by lia. reflexivity.
Qed.

(** ** Seconds quantizer *)

Section Seconds.

Variable g : globals.

Lemma seconds_full_offset (ticks : Z) :
  g_offset_time g = true -> g_full_time g = true ->
  0 <= ticks <= INT_MAX - 500 ->
  seconds g ticks = (ticks + 500) ÷ 1000.
Proof.
  unfold INT_MAX. intros Ho Hf Ht. unfold seconds. rewrite Ho, Hf.
  unfold int_div, int_add.
  rewrite (s32_id (ticks + 500)) by (unfold in_int, INT_MIN, INT_MAX; lia).
  pose proof (quot_bounds (ticks + 500) 1000 ltac:(lia) ltac:(lia)).
  apply s32_id. unfold in_int, INT_MIN, INT_MAX; lia.
Qed.

Lemma seconds_offset (ticks : Z) :
  g_offset_time g = true -> g_full_time g = false ->
  0 <= ticks <= INT_MAX ->
  seconds g ticks = ticks ÷ 1000 + Z.rem (ticks ÷ 1000 + 1) 2.
Proof.
  unfold INT_MAX. intros Ho Hf Ht. unfold seconds. rewrite Ho, Hf.
  unfold int_div, int_add, int_rem.
  pose proof (quot_bounds ticks 1000 ltac:(lia) ltac:(lia)) as Hq.
  rewrite (s32_id (ticks ÷ 1000)) by (unfold in_int, INT_MIN, INT_MAX; lia).
  rewrite (s32_id (ticks ÷ 1000 + 1)) by (unfold in_int, INT_MIN, INT_MAX; lia).
  pose proof (Z.rem_bound_pos (ticks ÷ 1000 + 1) 2 ltac:(lia) ltac:(lia)) as Hr.
  rewrite (s32_id (Z.rem _ _)) by (unfold in_int, INT_MIN, INT_MAX; lia).
  apply s32_id. unfold in_int, INT_MIN, INT_MAX; lia.
Qed.

Lemma seconds_full (ticks : Z) :
  g_offset_time g = false -> g_full_time g = true ->
  0 <= ticks <= INT_MAX ->
  seconds g ticks = ticks ÷ 1000.
Proof.
  unfold INT_MAX. intros Ho Hf Ht. unfold seconds. rewrite Ho, Hf.
  unfold int_div.
  pose proof (quot_bounds ticks 1000 ltac:(lia) ltac:(lia)) as Hq.
  apply s32_id. unfold in_int, INT_MIN, INT_MAX; lia.
Qed.

Lemma seconds_default (ticks : Z) :
  g_offset_time g = false -> g_full_time g = false ->
  400 <= ticks <= INT_MAX ->
  seconds g ticks = odd_seconds_formula ticks.
Proof.
  unfold INT_MAX. intros Ho Hf Ht. unfold seconds, odd_seconds_formula.
  rewrite Ho, Hf. unfold int_add, int_mul, int_div, int_sub.
  rewrite (s32_id (ticks - 1000)) by (unfold in_int, INT_MIN, INT_MAX; lia).
  assert (Hq : 0 <= (ticks - 1000) ÷ 2000 /\ 2000 * ((ticks - 1000) ÷ 2000) <= ticks).
  { destruct (Z_lt_le_dec (ticks - 1000) 0) as [Hneg | Hpos].
    - rewrite quot_small_negative by lia. lia.
    - pose proof (quot_bounds (ticks - 1000) 2000 Hpos ltac:(lia)). lia. }
  rewrite (s32_id ((ticks - 1000) ÷ 2000)) by (unfold in_int, INT_MIN, INT_MAX; lia).
  rewrite (s32_id ((ticks - 1000) ÷ 2000 * 2)) by (unfold in_int, INT_MIN, INT_MAX; lia).
  apply s32_id. unfold in_int, INT_MIN, INT_MAX. lia.
Qed.

End Seconds.

Lemma quot_monotone (a b c : Z) : 0 < c -> a <= b -> a ÷ c <= b ÷ c.
Proof. intros Hc Hab. apply Z.quot_le_mono; lia. Qed.

Lemma offset_round_monotone (s1 s2 : Z) :
  0 <= s1 -> s1 <= s2 -> s1 + Z.rem (s1 + 1) 2 <= s2 + Z.rem (s2 + 1) 2.
Proof.
  intros H0 H12.
  pose proof (Z.rem_bound_pos (s1 + 1) 2 ltac:(lia) ltac:(lia)) as R1.
  pose proof (Z.rem_bound_pos (s2 + 1) 2 ltac:(lia) ltac:(lia)) as R2.
  destruct (Z.eq_dec s1 s2) as [-> | Hne]; lia.
Qed.

(** C5, as stated, fails in the regime with both flags set: for [ticks]
    within 500 of [INT_MAX] the sum [ticks + 500] leaves the range of
    [int], and the reported seconds drop from 2147483 to -2147483. *)
Lemma seconds_not_monotone_near_int_max :
  let g := set_full_time (set_offset_time initial_globals true) true in
  400 <= 2147483147 /\ 2147483147 <= 2147483148 /\ in_int 2147483148 /\
  ~ seconds g 2147483147 <= seconds g 2147483148.
Proof.
  assert (H1 : seconds (set_full_time (set_offset_time initial_globals true) true)
                       2147483147 = 2147483) by reflexivity.
  assert (H2 : seconds (set_full_time (set_offset_time initial_globals true) true)
                       2147483148 = -2147483) by reflexivity.
  cbv zeta. rewrite H1, H2. unfold in_int, INT_MIN, INT_MAX. lia.
Qed.

(** C5 (amended): for [400 <= ticks1 <= ticks2 <= INT_MAX], and
    [ticks2 <= INT_MAX - 500] when both flags are set, the quantizer is
    monotonic non-decreasing in all four regimes. *)
Theorem seconds_monotone (g : globals) (ticks1 ticks2 : Z) :
  400 <= ticks1 -> ticks1 <= ticks2 -> ticks2 <= INT_MAX ->
  (g_full_time g = true -> g_offset_time g = true -> ticks2 <= INT_MAX - 500) ->
  seconds g ticks1 <= seconds g ticks2.
Proof.
  intros H1 H12 H2 Hfo.
  destruct (g_offset_time g) eqn:Ho, (g_full_time g) eqn:Hf.
  - specialize (Hfo eq_refl eq_refl).
    rewrite !seconds_full_offset by (auto; lia).
    apply quot_monotone; lia.
  - rewrite !seconds_offset by (auto; lia).
    apply offset_round_monotone.
    + apply Z.quot_pos; lia.
    + apply quot_monotone; lia.
  - rewrite !seconds_full by (auto; lia).
    apply quot_monotone; lia.
  - rewrite !seconds_default by (auto; lia).
    unfold odd_seconds_formula.
    pose proof (quot_monotone (ticks1 - 1000) (ticks2 - 1000) 2000 ltac:(lia) ltac:(lia)).
    lia.
Qed.

Lemma seconds_monotone_witness :
  let g := set_full_time (set_offset_time initial_globals true) true in
  seconds g 400 <= seconds g 2600.
Proof.
  apply (seconds_monotone
           (set_full_time (set_offset_time initial_globals true) true) 400 2600);
    unfold INT_MAX; simpl; intros; lia.
Defined.

(** C6: with both flags false and [400 <= ticks <= INT_MAX], [seconds]
    returns [1 + ((ticks - 1000) / 2000) * 2] under truncating division,
    and that value is odd. *)
Theorem seconds_default_is_odd (g : globals) (ticks : Z) :
  g_full_time g = false -> g_offset_time g = false ->
  400 <= ticks -> ticks <= INT_MAX ->
  seconds g ticks = 1 + ((ticks - 1000) ÷ 2000) * 2 /\
  Z.odd (seconds g ticks) = true.
Proof.
  intros Hf Ho H1 H2.
  rewrite seconds_default by (auto; lia).
  unfold odd_seconds_formula. split; [reflexivity|].
  rewrite (Z.mul_comm _ 2), Z.odd_add_mul_2. reflexivity.
Qed.

Lemma seconds_default_is_odd_witness :
  seconds initial_globals 3200 = 1 + ((3200 - 1000) ÷ 2000) * 2 /\
  Z.odd (seconds initial_globals 3200) = true.
Proof.
  apply (seconds_default_is_odd initial_globals 3200);
    unfold INT_MAX; simpl; try reflexivity; lia.
Defined.

(** ** Action names *)

Lemma utoa_two_digits (n : Z) : n <= 99 -> (String.length (utoa n) <= 2)%nat.
Proof.
  intros Hn. unfold utoa. simpl utoa_aux.
  destruct (n <? 10) eqn:E1; [simpl; lia|].
  destruct (n / 10 <? 10) eqn:E2; [simpl; lia|].
  apply Z.ltb_ge in E2.
  assert (n / 10 < 10) by (apply Z.div_lt_upper_bound; lia). lia.
Qed.

Lemma string_length_append (a b : string) :
  String.length (a ++ b)%string = (String.length a + String.length b)%nat.
Proof. induction a as [|c a IH]; simpl; [reflexivity | rewrite IH; reflexivity]. Qed.

(** C7: for the four action kinds and every [unsigned] click count and
    hold time, the name written by [get_action_name] is one of DOWN, UP,
    CLICK_<k>, CLICK_OTHER, HOLD_<s>S, HOLD_OTHER with [k], [s] at most 99,
    and has at most [ACTION_NAME_SIZE] = 11 bytes before its terminator. *)
Theorem action_name_fits (g : globals) (action : action_e) (click_count hold_time : Z) :
  action <> A_COUNT -> in_u32 click_count -> in_u32 hold_time ->
  let name := get_action_name g action click_count hold_time in
  slen name <= ACTION_NAME_SIZE /\
  (name = "DOWN" \/ name = "UP" \/
   (exists k, 0 <= k <= 99 /\ name = ("CLICK_" ++ utoa k)%string) \/
   name = "CLICK_OTHER" \/
   (exists s, 0 <= s <= 99 /\ name = ("HOLD_" ++ utoa s ++ "S")%string) \/
   name = "HOLD_OTHER").
Proof.
  intros Ha Hc Hh. unfold slen, ACTION_NAME_SIZE.
  destruct action; cbn [get_action_name]; cbv zeta.
  - split; [simpl; lia | auto].
  - split; [simpl; lia | auto 6].
  - unfold ABSOLUTE_MAX_CLICK. destruct (click_count <=? 99) eqn:E.
    + apply Z.leb_le in E. split.
      * rewrite string_length_append.
        pose proof (utoa_two_digits click_count E). simpl String.length. lia.
      * right. right. left. exists click_count. unfold in_u32 in Hc.
        split; [lia | reflexivity].
    + split; [simpl; lia | auto 6].
  - unfold ABSOLUTE_MAX_HOLD.
    pose proof (u32_range (seconds g (s32 hold_time))) as Hr.
    destruct (u32 (seconds g (s32 hold_time)) <=? 99) eqn:E.
    + apply Z.leb_le in E. split.
      * rewrite !string_length_append.
        pose proof (utoa_two_digits _ E). simpl String.length. lia.
      * do 4 right. left. exists (u32 (seconds g (s32 hold_time))).
        unfold in_u32 in Hr. split; [lia | reflexivity].
    + split; [simpl; lia | auto 8].
  - contradiction.
Qed.

Lemma action_name_fits_witness :
  slen (get_action_name initial_globals A_HOLD 2 3200) <= ACTION_NAME_SIZE /\
  get_action_name initial_globals A_HOLD 2 3200 = "HOLD_3S".
Proof.
  destruct (action_name_fits initial_globals A_HOLD 2 3200) as [Hlen _].
  - discriminate.
  - unfold in_u32, UINT_MAX. lia.
  - unfold in_u32, UINT_MAX. lia.
  - split; [exact Hlen | reflexivity].
Defined.

(** ** Gesture loop *)

Lemma u32_succ (n : Z) : 0 <= n -> n + 1 <= UINT_MAX -> u32 (n + 1) = n + 1.
Proof. intros H0 H1. apply u32_id. unfold in_u32. lia. Qed.

Lemma u32_le (x : Z) : 0 <= x -> 0 <= u32 x <= x.
Proof.
  intros Hx. unfold u32. split.
  - apply Z.mod_pos_bound. lia.
  - apply Z.mod_le; lia.
Qed.

Ltac break_match :=
  match goal with
  | |- context [match ?x with _ => _ end] => destruct x eqn:?
  | H : context [match ?x with _ => _ end] |- _ => destruct x eqn:?
  end.

Ltac invert_pairs :=
  repeat match goal with
         | H : Some _ = Some _ |- _ => inversion H; subst; clear H
         | H : (_, _) = (_, _) |- _ => inversion H; subst; clear H
         | H : Some _ = None |- _ => discriminate H
         | H : None = Some _ |- _ => discriminate H
         end.

Section LoopInvariant.

Variable g : globals.
Variable P : nat -> gesture -> list effect -> Prop.

Hypothesis P_step :
  forall k s tr w,
    P k s tr ->
    P (S k) (fst (fst (iteration g s w))) (tr ++ snd (fst (iteration g s w)))%list.

Lemma run_loop_invariant_from (ws : list wakeup) :
  forall k s tr,
    P k s tr ->
    exists k', (k <= k' <= k + List.length ws)%nat /\
               P k' (fst (fst (run_loop g s ws)))
                 (tr ++ List.concat (snd (fst (run_loop g s ws))))%list.
Proof.
  induction ws as [|w ws IH]; intros k s tr HP.
  - exists k. simpl. rewrite app_nil_r. split; [lia | exact HP].
  - pose proof (P_step k s tr w HP) as Hs. simpl run_loop.
    destruct (iteration g s w) as [[s' effs] [e|]]; simpl in Hs.
    + exists (S k). simpl. rewrite app_nil_r. split; [lia | exact Hs].
    + destruct (IH (S k) s' (tr ++ effs)%list Hs) as [k' [Hk HP']].
      destruct (run_loop g s' ws) as [[s'' rest] e] eqn:Hrun. simpl in *.
      exists k'. rewrite app_assoc. split; [lia | exact HP'].
Qed.

End LoopInvariant.

Lemma handle_button_count (g : globals) (k : nat) (s s' : gesture)
      (tr effs : list effect) (r : button_reading) :
  in_u32 (g_click_count_limit g) ->
  (g_click_count_limit g = 0 -> Z.of_nat (S k) <= UINT_MAX) ->
  count_invariant g k s tr ->
  handle_button g s r = Some (s', effs) ->
  count_invariant g (S k) s' (tr ++ effs)%list.
Proof.
  unfold in_u32, UINT_MAX, count_invariant, handle_button.
  intros Hlim Hk (H0 & Hz & Hnz & Ht & Hd & Hn) Hb.
  repeat break_match; invert_pairs; simpl;
    rewrite ?in_app_iff; simpl;
    try (rewrite u32_succ by
            (unfold UINT_MAX;
             rewrite ?Bool.orb_true_iff, ?Z.eqb_eq, ?Z.ltb_lt in *; lia));
    rewrite ?Bool.orb_true_iff, ?Bool.orb_false_iff, ?Z.eqb_eq, ?Z.eqb_neq,
            ?Z.ltb_lt, ?Z.ltb_ge in *;
    unfold onDown, onUp, onHold in *;
    repeat split; intros;
    try lia;
    try (exfalso; intuition (discriminate || lia || congruence); fail);
    intuition (try discriminate; try lia; try congruence).
Qed.

Lemma handle_timer_count (g : globals) (k : nat) (s s' : gesture)
      (tr effs : list effect) (n : Z) :
  count_invariant g k s tr ->
  handle_timer s n = Some (s', effs) ->
  count_invariant g k s' (tr ++ effs)%list.
Proof.
  unfold count_invariant, handle_timer.
  intros (H0 & Hz & Hnz & Ht & Hd & Hn) Hb.
  repeat break_match; invert_pairs; simpl;
    rewrite ?in_app_iff; simpl; unfold onDown, onTimesClicked in *;
    repeat split; intros;
    try lia;
    intuition (try discriminate; try lia; try congruence).
Qed.

Lemma count_invariant_weaken (g : globals) (k : nat) (s : gesture) (tr : list effect) :
  count_invariant g k s tr -> count_invariant g (S k) s tr.
Proof.
  unfold count_invariant. intros (H0 & Hz & Hnz & Ht & Hd & Hn).
  repeat split; intros; try lia; intuition lia.
Qed.

Lemma iteration_count (g : globals) (k : nat) (s : gesture) (tr : list effect)
      (w : wakeup) :
  in_u32 (g_click_count_limit g) ->
  (g_click_count_limit g = 0 -> Z.of_nat (S k) <= UINT_MAX) ->
  count_invariant g k s tr ->
  count_invariant g (S k) (fst (fst (iteration g s w)))
                  (tr ++ snd (fst (iteration g s w)))%list.
Proof.
  intros Hlim Hk Hinv. unfold iteration.
  destruct (wk_result w =? -1); [simpl; rewrite app_nil_r;
                                  apply count_invariant_weaken, Hinv|].
  destruct (wk_result w =? 0); [simpl; rewrite app_nil_r;
                                 apply count_invariant_weaken, Hinv|].
  destruct (wk_button w) as [r|].
  - destruct (handle_button g s r) as [[s1 e1]|] eqn:Hb.
    + pose proof (handle_button_count g k s s1 tr e1 r Hlim Hk Hinv Hb) as H1.
      destruct (wk_timer w) as [n|]; [|exact H1].
      destruct (handle_timer s1 n) as [[s2 e2]|] eqn:Ht; simpl; [|exact H1].
      rewrite app_assoc. eapply handle_timer_count; eauto.
    + simpl. rewrite app_nil_r. apply count_invariant_weaken, Hinv.
  - destruct (wk_timer w) as [n|].
    + destruct (handle_timer s n) as [[s2 e2]|] eqn:Ht; simpl.
      * apply count_invariant_weaken. eapply handle_timer_count; eauto.
      * rewrite app_nil_r. apply count_invariant_weaken, Hinv.
    + simpl. rewrite app_nil_r. apply count_invariant_weaken, Hinv.
Qed.

Lemma count_invariant_start (g : globals) :
  in_u32 (g_click_count_limit g) -> count_invariant g 0 gesture_start [].
Proof.
  unfold count_invariant, in_u32. simpl. intros H.
  repeat split; intros; try lia; try contradiction; try discriminate.
Qed.

Lemma count_invariant_reachable (g : globals) (ws : list wakeup) :
  in_u32 (g_click_count_limit g) ->
  (g_click_count_limit g = 0 -> Z.of_nat (List.length ws) <= UINT_MAX) ->
  exists k, count_invariant g k (final_state g ws) (trace g ws).
Proof.
  intros Hlim Hlen.
  destruct (run_loop_invariant_from g
              (fun k s tr =>
                 (g_click_count_limit g = 0 -> Z.of_nat k <= UINT_MAX) ->
                 count_invariant g k s tr)) with
    (ws := ws) (k := O) (s := gesture_start) (tr := @nil effect)
    as [k' [Hk HP]].
  - intros k s tr w HP Hb. apply iteration_count; auto.
    apply HP. intros H0. specialize (Hb H0). lia.
  - intros _. apply count_invariant_start, Hlim.
  - exists k'. apply HP. intros H0. specialize (Hlen H0). lia.
Qed.

(** C3, as stated, fails: the timer branch clears [timer_running] and
    leaves [num_pressed] as it is, so after one click (press, release,
    timer) the timer is stopped and the count is still 1. *)
Lemma press_count_kept_after_timer :
  let s := final_state initial_globals
                       [pressed_edge 1000; released_edge 1100; timer_fired] in
  timer_running s = false /\ num_pressed s <> 0.
Proof. vm_compute. split; [reflexivity | discriminate]. Qed.

(** C3 (amended): in every state the loop reaches from the start state,
    [num_pressed >= 1] whenever [timer_running] is true; [num_pressed] is
    0, with the timer stopped, exactly as long as no DOWN action has been
    issued, and it is at least 1 from the first DOWN action on, also
    after the timer has fired.  The click limit is an [unsigned] value;
    without a limit (0) the run is shorter than 2^32 wakeups, so that the
    counter has not wrapped. *)
Theorem press_count_invariant (g : globals) (ws : list wakeup) :
  in_u32 (g_click_count_limit g) ->
  (g_click_count_limit g = 0 -> Z.of_nat (List.length ws) <= UINT_MAX) ->
  let s := final_state g ws in
  (timer_running s = true -> 1 <= num_pressed s) /\
  (In onDown (trace g ws) -> 1 <= num_pressed s) /\
  (~ In onDown (trace g ws) -> num_pressed s = 0 /\ timer_running s = false).
Proof.
  intros Hlim Hlen.
  destruct (count_invariant_reachable g ws Hlim Hlen)
    as [k (H0 & Hz & Hnz & Ht & Hd & Hn)].
  cbv zeta. auto.
Qed.

Lemma press_count_invariant_witness :
  let g := initial_globals in
  let ws := [pressed_edge 1000; released_edge 1100; pressed_edge 1200] in
  timer_running (final_state g ws) = true /\ 1 <= num_pressed (final_state g ws).
Proof.
  cbv zeta.
  destruct (press_count_invariant initial_globals
              [pressed_edge 1000; released_edge 1100; pressed_edge 1200])
    as [Ht _].
  - unfold in_u32, UINT_MAX, initial_globals, DEFAULT_CLICK_COUNT_LIMIT. simpl. lia.
  - unfold initial_globals, DEFAULT_CLICK_COUNT_LIMIT. simpl. intros H. discriminate H.
  - split; [reflexivity | apply Ht; reflexivity].
Defined.

Lemma iteration_pressed_edge (g : globals) (s : gesture) (t : Z) :
  iteration g s (pressed_edge t) =
  (mkGesture t true true
     (if negb (timer_running s) then 1
      else if ((g_click_count_limit g =? 0)
               || (num_pressed s <? g_click_count_limit g))%bool
           then u32 (num_pressed s + 1)
           else num_pressed s),
   [onDown; TimerSet click_timer], None).
Proof. reflexivity. Qed.

Lemma u32_add_succ (a : Z) (k : nat) :
  u32 (u32 (a + 1) + Z.of_nat k) = u32 (a + Z.of_nat (S k)).
Proof.
  unfold u32. rewrite Nat2Z.inj_succ, Zplus_mod_idemp_l.
  f_equal. lia.
Qed.

Lemma presses_without_limit (g : globals) (t : Z) (k : nat) :
  g_click_count_limit g = 0 ->
  forall s,
    timer_running s = true ->
    in_u32 (num_pressed s) ->
    let s' := fst (fst (run_loop g s (repeat (pressed_edge t) k))) in
    timer_running s' = true /\ num_pressed s' = u32 (num_pressed s + Z.of_nat k).
Proof.
  intros Hlim. induction k as [|k IH]; intros s Hs Hn.
  - simpl. rewrite Z.add_0_r, u32_id by exact Hn. auto.
  - cbn [repeat run_loop]. rewrite iteration_pressed_edge.
    rewrite Hs, Hlim. cbn [negb Z.eqb orb].
    specialize (IH (mkGesture t true true (u32 (num_pressed s + 1)))
                   eq_refl (u32_range _)).
    destruct (run_loop g (mkGesture t true true (u32 (num_pressed s + 1)))
                       (repeat (pressed_edge t) k)) as [[s'' rest] e].
    cbn [fst snd num_pressed] in *. rewrite u32_add_succ in IH. exact IH.
Qed.

(** Without a click limit the counter is an [unsigned] that is only ever
    incremented: the 2^32-th press of one window, each press re-arming the
    timer before it fires, brings it back to 0 with the timer running. *)
Lemma press_count_wraps_without_limit (g : globals) (t : Z) (k : nat) :
  g_click_count_limit g = 0 ->
  Z.of_nat (S k) = 4294967296 ->
  let s := final_state g (repeat (pressed_edge t) (S k)) in
  timer_running s = true /\ num_pressed s = 0.
Proof.
  intros Hlim Hk. unfold final_state. cbn [repeat run_loop].
  rewrite iteration_pressed_edge. cbn [gesture_start timer_running negb].
  pose proof (presses_without_limit g t k Hlim (mkGesture t true true 1) eq_refl) as H.
  destruct (run_loop g (mkGesture t true true 1) (repeat (pressed_edge t) k))
    as [[s'' rest] e].
  cbn [fst snd num_pressed] in *.
  destruct H as [Ht Hn]; [unfold in_u32, UINT_MAX; lia|].
  split; [exact Ht|]. rewrite Hn.
  replace (1 + Z.of_nat k) with 4294967296 by lia. reflexivity.
Qed.

Lemma limit_kept_by_iteration (g : globals) (s : gesture) (w : wakeup) :
  0 < g_click_count_limit g ->
  0 <= num_pressed s <= g_click_count_limit g ->
  0 <= num_pressed (fst (fst (iteration g s w))) <= g_click_count_limit g.
Proof.
  intros Hlim Hs. unfold iteration, handle_button, handle_timer.
  repeat break_match; invert_pairs; cbn [fst snd num_pressed]; try lia;
    rewrite ?Bool.orb_true_iff, ?Z.eqb_eq, ?Z.ltb_lt in *;
    pose proof (u32_le (num_pressed s + 1) ltac:(lia)); lia.
Qed.

Lemma limit_kept_by_loop (g : globals) (ws : list wakeup) :
  0 < g_click_count_limit g ->
  0 <= num_pressed (final_state g ws) <= g_click_count_limit g.
Proof.
  intros Hlim.
  destruct (run_loop_invariant_from g
              (fun _ s _ => 0 <= num_pressed s <= g_click_count_limit g)) with
    (ws := ws) (k := O) (s := gesture_start) (tr := @nil effect)
    as [k' [_ HP]].
  - intros _ s _ w Hs. apply limit_kept_by_iteration; assumption.
  - simpl. lia.
  - exact HP.
Qed.

(** C4, as stated, fails for a DOWN edge that arrives after the click
    window has closed: the count still stands at the limit (here 2), and
    the edge, finding the timer stopped, starts a new window with count 1. *)
Lemma down_edge_after_window_restarts_count :
  let g := set_click_count_limit initial_globals 2 in
  let s := final_state g [pressed_edge 1000; released_edge 1050;
                          pressed_edge 1100; timer_fired; released_edge 1700] in
  0 < g_click_count_limit g /\
  num_pressed s = g_click_count_limit g /\
  is_down_edge (pressed_edge 5000) = true /\
  num_pressed (fst (fst (iteration g s (pressed_edge 5000)))) <> num_pressed s.
Proof. vm_compute. repeat split; try reflexivity; discriminate. Qed.

(** C4 (amended): with a click limit above 0, [num_pressed] never exceeds
    the limit in any state the loop reaches; and a DOWN edge that arrives
    while the timer is running and [num_pressed] stands at the limit
    leaves [num_pressed] unchanged and still arms the timer, one-shot, for
    [CLICK_TIMEOUT_MS] from now. *)
Theorem click_limit_clamps (g : globals) (ws : list wakeup) (w : wakeup) :
  0 < g_click_count_limit g ->
  let s := final_state g ws in
  num_pressed s <= g_click_count_limit g /\
  (timer_running s = true ->
   num_pressed s = g_click_count_limit g ->
   is_down_edge w = true ->
   num_pressed (fst (fst (iteration g s w))) = num_pressed s /\
   In (TimerSet click_timer) (snd (fst (iteration g s w))) /\
   click_timer = mkItimerspec 0 0 0 (CLICK_TIMEOUT_MS * 1000000)).
Proof.
  intros Hlim. cbv zeta. split; [apply limit_kept_by_loop, Hlim|].
  intros Ht Hn Hw. unfold is_down_edge in Hw.
  unfold iteration, handle_button, handle_timer. rewrite Ht, Hn.
  repeat break_match; invert_pairs; cbn [fst snd num_pressed negb] in *;
    rewrite ?Bool.andb_true_iff, ?Bool.negb_true_iff in *;
    try (exfalso; intuition congruence);
    try (rewrite Z.ltb_irrefl in *);
    rewrite ?Bool.orb_true_iff, ?Bool.orb_false_iff, ?Z.eqb_eq, ?Z.eqb_neq in *;
    try lia;
    (split; [try reflexivity; try lia; intuition (try lia; try discriminate)
            | split; [simpl; auto; rewrite ?in_app_iff; simpl; auto | reflexivity]]).
Qed.

Lemma click_limit_clamps_witness :
  let g := set_click_count_limit initial_globals 2 in
  let s := final_state g [pressed_edge 1000; released_edge 1050; pressed_edge 1100] in
  num_pressed s <= 2 /\
  num_pressed (fst (fst (iteration g s (pressed_edge 1200)))) = 2 /\
  In (TimerSet click_timer) (snd (fst (iteration g s (pressed_edge 1200)))).
Proof.
  cbv zeta.
  destruct (click_limit_clamps (set_click_count_limit initial_globals 2)
              [pressed_edge 1000; released_edge 1050; pressed_edge 1100]
              (pressed_edge 1200)) as [Hle Hdown].
  - vm_compute. reflexivity.
  - destruct Hdown as (Hsame & Harm & _); try reflexivity.
    split; [exact Hle|]. split; [exact Hsame | exact Harm].
Defined.

Lemma up_then_hold_app (a b : list effect) :
  up_then_hold a -> up_then_hold b -> up_then_hold (a ++ b).
Proof.
  intros Ha Hb. induction Ha as [| c h l Hl IH | e l He Hl IH]; simpl.
  - exact Hb.
  - apply uth_pair, IH.
  - apply uth_other; [exact He | exact IH].
Qed.

Lemma up_then_hold_concat (ls : list (list effect)) :
  Forall up_then_hold ls -> up_then_hold (List.concat ls).
Proof.
  induction 1 as [| l ls Hl Hls IH]; simpl.
  - constructor.
  - apply up_then_hold_app; assumption.
Qed.

Lemma up_then_hold_follows (l : list effect) :
  up_then_hold l -> hold_follows_up l.
Proof.
  unfold hold_follows_up.
  induction 1 as [| c h l Hl IH | e l He Hl IH]; intros pre c' h' post Heq.
  - destruct pre; discriminate Heq.
  - destruct pre as [| x [| y pre]]; simpl in Heq.
    + discriminate Heq.
    + inversion Heq; subst. exists []. reflexivity.
    + inversion Heq; subst.
      destruct (IH pre c' h' post eq_refl) as [pre' ->].
      exists (onUp :: Execute A_HOLD c h :: pre'). reflexivity.
  - destruct pre as [| x pre]; simpl in Heq.
    + inversion Heq; subst. exfalso. apply (He c' h'). reflexivity.
    + inversion Heq; subst.
      destruct (IH pre c' h' post eq_refl) as [pre' ->].
      exists (x :: pre'). reflexivity.
Qed.

Ltac solve_up_then_hold :=
  repeat first
    [ apply uth_nil
    | apply uth_pair
    | apply uth_other; [unfold onDown, onUp, onTimesClicked; intros ? ?; discriminate|] ].

Lemma handle_button_effects (g : globals) (s s' : gesture) (r : button_reading)
      (effs : list effect) :
  handle_button g s r = Some (s', effs) -> up_then_hold effs.
Proof.
  unfold handle_button, onHold. intros H.
  repeat break_match; invert_pairs; solve_up_then_hold.
Qed.

Lemma handle_timer_effects (s s' : gesture) (n : Z) (effs : list effect) :
  handle_timer s n = Some (s', effs) -> up_then_hold effs.
Proof.
  unfold handle_timer. intros H.
  repeat break_match; invert_pairs; solve_up_then_hold.
Qed.

Lemma iteration_effects (g : globals) (s : gesture) (w : wakeup) :
  up_then_hold (snd (fst (iteration g s w))).
Proof.
  unfold iteration.
  destruct (wk_result w =? -1); [constructor|].
  destruct (wk_result w =? 0); [constructor|].
  destruct (wk_button w) as [r|].
  - destruct (handle_button g s r) as [[s1 e1]|] eqn:Hb; [|constructor].
    apply handle_button_effects in Hb.
    destruct (wk_timer w) as [n|]; [|exact Hb].
    destruct (handle_timer s1 n) as [[s2 e2]|] eqn:Ht; [|exact Hb].
    apply handle_timer_effects in Ht. simpl. apply up_then_hold_app; assumption.
  - destruct (wk_timer w) as [n|]; [|constructor].
    destruct (handle_timer s n) as [[s2 e2]|] eqn:Ht; [|constructor].
    apply handle_timer_effects in Ht. exact Ht.
Qed.

Lemma run_loop_effects (g : globals) (ws : list wakeup) :
  forall s, Forall up_then_hold (snd (fst (run_loop g s ws))).
Proof.
  induction ws as [|w ws IH]; intros s; simpl.
  - constructor.
  - pose proof (iteration_effects g s w) as Hw.
    destruct (iteration g s w) as [[s' effs] [e|]]; simpl in *.
    + constructor; [exact Hw | constructor].
    + specialize (IH s'). destruct (run_loop g s' ws) as [[s'' rest] e].
      simpl in *. constructor; assumption.
Qed.

(** C8: in every run of the loop, every HOLD action stands directly
    behind an UP action, in the whole sequence of actions and within the
    turn of the loop that issued it: the two come from the same button
    reading, with nothing in between. *)
Theorem hold_immediately_after_up (g : globals) (ws : list wakeup) :
  hold_follows_up (trace g ws) /\ Forall hold_follows_up (turns g ws).
Proof.
  pose proof (run_loop_effects g ws gesture_start) as H. split.
  - apply up_then_hold_follows, up_then_hold_concat, H.
  - unfold turns. eapply Forall_impl; [|exact H].
    intros l. apply up_then_hold_follows.
Qed.

Example hold_is_issued_after_up :
  trace initial_globals [pressed_edge 1000; timer_fired; released_edge 1600] =
  [onDown; TimerSet click_timer; onUp; Execute A_HOLD 1 600].
Proof. reflexivity. Qed.

(** ** Configuration reader *)

Lemma skip_span_head (set s : string) (c : ascii) (rest : string) :
  skip_span set s = String c rest -> mem_char c set = false.
Proof.
  induction s as [|d s IH]; simpl; intros H.
  - discriminate H.
  - destruct (mem_char d set) eqn:E.
    + apply IH, H.
    + inversion H; subst. exact E.
Qed.

Lemma strpbrk_prefix_nonempty (set rest name t : string) (c : ascii) :
  mem_char c set = false ->
  strpbrk (String c rest) set = Some (name, t) ->
  name <> EmptyString.
Proof.
  simpl. intros Hc. rewrite Hc.
  destruct (strpbrk rest set) as [[pre suf]|]; intros H; inversion H; subst.
  discriminate.
Qed.

Lemma buffer_size_positive : exists m, Z.to_nat BUFFER_SIZE = S (S m).
Proof.
  exists (Z.to_nat 8191). unfold BUFFER_SIZE, MAX_PATH_LENGTH.
  change (2 * 4096 + 1) with (Z.succ (Z.succ 8191)).
  rewrite !Z2Nat.inj_succ by lia. reflexivity.
Qed.

Lemma split_line_name_nonempty (c : ascii) (rest : string) (want_args : bool) :
  mem_char c WHITESPACE_CHARS = false ->
  pl_name (split_line (String c rest) want_args) <> EmptyString.
Proof.
  intros Hc. unfold split_line.
  destruct (strpbrk (String c rest) WHITESPACE_CHARS) as [[name t]|] eqn:E.
  - pose proof (strpbrk_prefix_nonempty _ _ _ _ _ Hc E) as Hn.
    destruct want_args; [|exact Hn].
    destruct (strpbrk (skip_span WHITESPACE_CHARS t) WHITESPACE_CHARS)
      as [[value a1]|]; exact Hn.
  - destruct buffer_size_positive as [m ->]. cbn [pl_name take]. discriminate.
Qed.

Lemma stripped_line_name_nonempty (buffer : string) (want_args : bool) :
  1 < slen (strip_line buffer) ->
  exists c rest,
    strip_line buffer = String c rest /\
    mem_char c WHITESPACE_CHARS = false /\
    pl_name (split_line (strip_line buffer) want_args) <> EmptyString.
Proof.
  intros Hlen. destruct (strip_line buffer) as [|c rest] eqn:Hp.
  - unfold slen in Hlen. simpl in Hlen. lia.
  - exists c, rest. unfold strip_line in Hp.
    pose proof (skip_span_head _ _ _ _ Hp) as Hc.
    split; [reflexivity|]. split; [exact Hc|].
    apply split_line_name_nonempty, Hc.
Qed.

Lemma classify_line_never_unexpected (buffer value_name : string)
      (want_args : bool) (n : Z) :
  classify_line buffer value_name want_args n <> LineUnexpectedSyntax.
Proof.
  unfold classify_line.
  destruct (1 <? slen (strip_line buffer)) eqn:E; [|discriminate].
  apply Z.ltb_lt in E.
  destruct (stripped_line_name_nonempty buffer want_args E) as (c & rest & _ & _ & Hn).
  destruct (pl_name (split_line (strip_line buffer) want_args)) as [|d name] eqn:En.
  - contradiction.
  - unfold slen. cbn [String.length].
    replace (Z.of_nat (S (String.length name)) =? 0) with false
      by (symmetry; apply Z.eqb_neq; lia).
    cbn [negb].
    destruct (String.eqb (String d name) value_name); [|discriminate].
    destruct ((_ <? n) && (_ <? n))%bool; discriminate.
Qed.

Lemma scan_config_never_unexpected (value_name : string) (want_args : bool) (n : Z)
      (fuel : nat) :
  forall f currentLine line,
    ~ In (UnexpectedSyntax line)
         (snd (scan_config fuel f value_name want_args n currentLine)).
Proof.
  induction fuel as [|fuel IH]; intros f currentLine line; cbn [scan_config].
  - simpl. auto.
  - destruct (read_line f (Z.to_nat BUFFER_SIZE)) as [[buffer rest]|]; [|simpl; auto].
    pose proof (classify_line_never_unexpected buffer value_name want_args n) as Hc.
    specialize (IH rest (currentLine + 1) line).
    destruct (classify_line buffer value_name want_args n); try contradiction;
      try exact IH.
    + simpl. auto.
    + destruct (scan_config fuel rest value_name want_args n (currentLine + 1))
        as [r w]. simpl in *. intros [H | H]; [discriminate H | auto].
Qed.

(** C9: the zero-length-name branch of the configuration reader is never
    taken.  Once the line is cut at ['#'] and at the newline and the
    leading blanks are skipped, a rest longer than one byte starts with a
    byte that is neither space nor tab, so the name parsed from it is not
    empty; no line is classified as unexpected syntax, and no lookup
    writes that warning. *)
Theorem unexpected_syntax_unreachable
        (fs : filesystem) (conf value_name default_value buffer : string)
        (want_args : bool) (n : Z) :
  (slen (strip_line buffer) <= 1 \/
   exists c rest,
     strip_line buffer = String c rest /\
     mem_char c WHITESPACE_CHARS = false /\
     pl_name (split_line (strip_line buffer) want_args) <> EmptyString) /\
  classify_line buffer value_name want_args n <> LineUnexpectedSyntax /\
  (forall line,
      ~ In (UnexpectedSyntax line)
           (lk_warnings (read_config_value fs conf value_name want_args n
                                           default_value))).
Proof.
  split; [|split].
  - destruct (Z_le_gt_dec (slen (strip_line buffer)) 1) as [Hle | Hgt].
    + left. exact Hle.
    + right. apply stripped_line_name_nonempty. lia.
  - apply classify_line_never_unexpected.
  - intros line. unfold read_config_value.
    destruct (fs conf) as [f|]; [|simpl; auto].
    pose proof (scan_config_never_unexpected value_name want_args n
                  (S (String.length f)) f 0 line) as H.
    destruct (scan_config (S (String.length f)) f value_name want_args n 0)
      as [[[value argument]|] w]; exact H.
Qed.

Lemma fgets_rest_le (room : nat) :
  forall f buf rest,
    fgets room f = (buf, rest) -> (String.length rest <= String.length f)%nat.
Proof.
  induction room as [|room IH]; intros f buf rest H.
  - simpl in H. inversion H; subst. lia.
  - destruct f as [|c f]; simpl in H.
    + inversion H; subst. simpl. lia.
    + destruct (Ascii.eqb c LF).
      * inversion H; subst. simpl. lia.
      * destruct (fgets room f) as [b r] eqn:E. inversion H; subst.
        apply IH in E. simpl. lia.
Qed.

Lemma skip_to_next_line_le (f : string) :
  (String.length (skip_to_next_line f) <= String.length f)%nat.
Proof.
  induction f as [|c f IH]; simpl; [lia|].
  destruct (Ascii.eqb c LF); simpl; lia.
Qed.

Lemma read_line_shorter (f buffer rest : string) (m : nat) :
  read_line f (S (S m)) = Some (buffer, rest) ->
  (String.length rest < String.length f)%nat.
Proof.
  unfold read_line. destruct f as [|c f]; [discriminate|].
  replace (S (S m) - 1)%nat with (S m) by lia.
  destruct (fgets (S m) (String c f)) as [b r] eqn:E.
  assert (Hr : (String.length r < String.length (String c f))%nat).
  { simpl in E. destruct (Ascii.eqb c LF).
    - inversion E; subst. simpl. lia.
    - destruct (fgets m f) as [b' r'] eqn:E'. inversion E; subst.
      apply fgets_rest_le in E'. simpl. lia. }
  pose proof (skip_to_next_line_le r) as Hskip.
  destruct (negb _ && negb _)%bool; intros Heq; inversion Heq; subst; lia.
Qed.

(** The loop of the reader ends: above the length of the file, the
    amount of fuel does not change the result. *)
Lemma scan_config_fuel (value_name : string) (want_args : bool) (n : Z)
      (fuel1 : nat) :
  forall fuel2 f currentLine,
    (String.length f < fuel1)%nat -> (String.length f < fuel2)%nat ->
    scan_config fuel1 f value_name want_args n currentLine =
    scan_config fuel2 f value_name want_args n currentLine.
Proof.
  induction fuel1 as [|fuel1 IH]; intros fuel2 f currentLine H1 H2; [lia|].
  destruct fuel2 as [|fuel2]; [lia|]. cbn [scan_config].
  destruct (read_line f (Z.to_nat BUFFER_SIZE)) as [[buffer rest]|] eqn:E;
    [|reflexivity].
  destruct buffer_size_positive as [m Hm]. rewrite Hm in E.
  apply read_line_shorter in E.
  rewrite (IH fuel2 rest (currentLine + 1)) by lia. reflexivity.
Qed.

Lemma truncate_at_removes (c : ascii) (s : string) :
  contains_char c (truncate_at c s) = false.
Proof.
  induction s as [|d s IH]; simpl; [reflexivity|].
  destruct (Ascii.eqb d c) eqn:E; simpl; [reflexivity|].
  rewrite E, IH. reflexivity.
Qed.

Lemma truncate_at_keeps_absent (c d : ascii) (s : string) :
  contains_char c s = false -> contains_char c (truncate_at d s) = false.
Proof.
  induction s as [|e s IH]; simpl; intros H; [reflexivity|].
  apply Bool.orb_false_iff in H. destruct H as [He Hs].
  destruct (Ascii.eqb e d); simpl; [reflexivity|].
  rewrite He, IH by exact Hs. reflexivity.
Qed.

Lemma skip_span_keeps_absent (c : ascii) (set s : string) :
  contains_char c s = false -> contains_char c (skip_span set s) = false.
Proof.
  induction s as [|e s IH]; simpl; intros H; [reflexivity|].
  pose proof H as H'. apply Bool.orb_false_iff in H'. destruct H' as [He Hs].
  destruct (mem_char e set); [apply IH, Hs | exact H].
Qed.

Lemma strpbrk_keeps_absent (c : ascii) (set s pre suf : string) :
  contains_char c s = false ->
  strpbrk s set = Some (pre, suf) ->
  contains_char c pre = false /\ contains_char c suf = false.
Proof.
  revert pre suf. induction s as [|e s IH]; simpl; intros pre suf H E;
    [discriminate|].
  pose proof H as H'. apply Bool.orb_false_iff in H'. destruct H' as [He Hs].
  destruct (mem_char e set).
  - inversion E; subst. simpl. rewrite He, Hs. auto.
  - destruct (strpbrk s set) as [[p q]|]; [|discriminate].
    inversion E; subst. destruct (IH p suf Hs eq_refl) as [Hp Hq].
    simpl. rewrite He, Hp. auto.
Qed.

Lemma strip_line_no_hash (buffer : string) :
  contains_char HASH (strip_line buffer) = false.
Proof.
  unfold strip_line.
  apply skip_span_keeps_absent, truncate_at_keeps_absent, truncate_at_removes.
Qed.

Lemma split_line_value_keeps_absent (c : ascii) (p : string) (want_args : bool) :
  contains_char c p = false ->
  contains_char c (pl_value (split_line p want_args)) = false.
Proof.
  intros Hp. unfold split_line.
  destruct (strpbrk p WHITESPACE_CHARS) as [[name t]|] eqn:E; [|reflexivity].
  destruct (strpbrk_keeps_absent _ _ _ _ _ Hp E) as [_ Ht].
  pose proof (skip_span_keeps_absent c WHITESPACE_CHARS t Ht) as Ht'.
  destruct want_args; [|exact Ht'].
  destruct (strpbrk (skip_span WHITESPACE_CHARS t) WHITESPACE_CHARS)
    as [[value a1]|] eqn:E'; [|exact Ht'].
  destruct (strpbrk_keeps_absent _ _ _ _ _ Ht' E') as [Hv _]. exact Hv.
Qed.

Lemma classify_line_accepts (buffer value_name : string) (want_args : bool) (n : Z) :
  let p := strip_line buffer in
  let pl := split_line p want_args in
  let fits := ((1 <? slen p) && String.eqb (pl_name pl) value_name
               && (slen (pl_value pl) <? n) && (slen (pl_argument pl) <? n))%bool in
  match classify_line buffer value_name want_args n with
  | LineAccepted value argument =>
      fits = true /\ value = pl_value pl /\ argument = pl_argument pl
  | _ => fits = false
  end.
Proof.
  cbv zeta. unfold classify_line.
  destruct (1 <? slen (strip_line buffer)) eqn:E1; [|reflexivity].
  pose proof E1 as E1'. apply Z.ltb_lt in E1'.
  destruct (stripped_line_name_nonempty buffer want_args E1') as (c & rest & _ & _ & Hn).
  destruct (pl_name (split_line (strip_line buffer) want_args)) as [|d name] eqn:En;
    [contradiction|].
  unfold slen at 1. cbn [String.length].
  replace (Z.of_nat (S (String.length name)) =? 0) with false
    by (symmetry; apply Z.eqb_neq; lia).
  cbn [negb andb].
  destruct (String.eqb (String d name) value_name); [|reflexivity].
  cbn [andb].
  destruct (slen (pl_value _) <? n); [|reflexivity].
  destruct (slen (pl_argument _) <? n); [|reflexivity].
  cbn [andb]. auto.
Qed.

Lemma scan_config_finds_fitting (value_name : string) (want_args : bool) (n : Z)
      (fuel : nat) :
  forall f currentLine,
    match fst (scan_config fuel f value_name want_args n currentLine) with
    | Some (value, _) =>
        fitting_binding_present fuel f value_name want_args n = true /\
        contains_char HASH value = false
    | None => fitting_binding_present fuel f value_name want_args n = false
    end.
Proof.
  induction fuel as [|fuel IH]; intros f currentLine;
    cbn [scan_config fitting_binding_present]; [reflexivity|].
  destruct (read_line f (Z.to_nat BUFFER_SIZE)) as [[buffer rest]|]; [|reflexivity].
  pose proof (classify_line_accepts buffer value_name want_args n) as Hc.
  cbv zeta in Hc. specialize (IH rest (currentLine + 1)).
  destruct (classify_line buffer value_name want_args n);
    try (rewrite Hc; cbn [orb];
         destruct (scan_config fuel rest value_name want_args n (currentLine + 1))
           as [r w]; exact IH).
  destruct Hc as (Hfit & -> & ->). rewrite Hfit. cbn [fst orb]. split; [reflexivity|].
  apply split_line_value_keeps_absent, strip_line_no_hash.
Qed.

Lemma fitting_binding_has_key (value_name : string) (want_args : bool) (n : Z)
      (fuel : nat) :
  forall f,
    fitting_binding_present fuel f value_name want_args n = true ->
    key_present fuel f value_name want_args = true.
Proof.
  induction fuel as [|fuel IH]; intros f; cbn [fitting_binding_present key_present];
    [discriminate|].
  destruct (read_line f (Z.to_nat BUFFER_SIZE)) as [[buffer rest]|]; [|discriminate].
  intros H. apply Bool.orb_true_iff in H. apply Bool.orb_true_iff.
  destruct H as [H | H].
  - left. rewrite !Bool.andb_true_iff in H. rewrite Bool.andb_true_iff. tauto.
  - right. apply IH, H.
Qed.

Lemma starts_with_contains (c : ascii) (s : string) :
  starts_with c s = true -> contains_char c s = true.
Proof.
  destruct s as [|d s]; simpl; intros H; [discriminate|].
  rewrite H. reflexivity.
Qed.

Lemma classify_line_not_named (buffer key : string) (want_args : bool) (n : Z) :
  ((1 <? slen (strip_line buffer))
   && String.eqb (pl_name (split_line (strip_line buffer) want_args)) key)%bool = false ->
  classify_line buffer key want_args n = LineSkipped \/
  classify_line buffer key want_args n = LineOtherName.
Proof.
  intros Hn.
  pose proof (classify_line_never_unexpected buffer key want_args n) as Hu.
  unfold classify_line in *.
  destruct (1 <? slen (strip_line buffer)); [|auto].
  destruct (negb (slen (pl_name (split_line (strip_line buffer) want_args)) =? 0));
    [|contradiction].
  cbn [andb] in Hn. rewrite Hn. auto.
Qed.

Lemma scan_config_without_key (key : string) (want_args : bool) (n : Z) (fuel : nat) :
  forall f currentLine,
    key_present fuel f key want_args = false ->
    scan_config fuel f key want_args n currentLine = (None, []).
Proof.
  induction fuel as [|fuel IH]; intros f currentLine H;
    cbn [scan_config key_present] in *; [reflexivity|].
  destruct (read_line f (Z.to_nat BUFFER_SIZE)) as [[buffer rest]|]; [|reflexivity].
  cbv zeta in H. apply Bool.orb_false_iff in H. destruct H as [Hline Hrest].
  destruct (classify_line_not_named buffer key want_args n Hline) as [-> | ->];
    apply IH, Hrest.
Qed.

Lemma classify_line_named (buffer key : string) (want_args : bool) (n : Z) :
  ((1 <? slen (strip_line buffer))
   && String.eqb (pl_name (split_line (strip_line buffer) want_args)) key)%bool = true ->
  classify_line buffer key want_args n = LineTooLong \/
  exists value argument,
    classify_line buffer key want_args n = LineAccepted value argument.
Proof.
  intros Hn.
  pose proof (classify_line_never_unexpected buffer key want_args n) as Hu.
  unfold classify_line in *.
  apply Bool.andb_true_iff in Hn. destruct Hn as [Hlen Hname].
  rewrite Hlen in *.
  destruct (negb (slen (pl_name (split_line (strip_line buffer) want_args)) =? 0));
    [|contradiction].
  rewrite Hname.
  destruct ((_ <? n) && (_ <? n))%bool; [right; eauto | left; reflexivity].
Qed.

(** A line that names the key and is passed over leaves the warning
    behind: a scan that meets the key and no binding that fits has
    written [TooLongValue]. *)
Lemma scan_config_warns_overlong (key : string) (want_args : bool) (n : Z)
      (fuel : nat) :
  forall f currentLine,
    key_present fuel f key want_args = true ->
    fitting_binding_present fuel f key want_args n = false ->
    exists line,
      In (TooLongValue line) (snd (scan_config fuel f key want_args n currentLine)).
Proof.
  induction fuel as [|fuel IH]; intros f currentLine Hk Hf;
    cbn [scan_config key_present fitting_binding_present] in *; [discriminate|].
  destruct (read_line f (Z.to_nat BUFFER_SIZE)) as [[buffer rest]|]; [|discriminate].
  cbv zeta in Hk, Hf. apply Bool.orb_false_iff in Hf. destruct Hf as [Hline Hrest].
  pose proof (classify_line_accepts buffer key want_args n) as Hc. cbv zeta in Hc.
  destruct ((1 <? slen (strip_line buffer))
            && String.eqb (pl_name (split_line (strip_line buffer) want_args)) key)%bool
    eqn:Hnamed.
  - destruct (classify_line_named buffer key want_args n Hnamed)
      as [E | (value & argument & E)]; rewrite E in *.
    + destruct (scan_config fuel rest key want_args n (currentLine + 1)) as [r w].
      exists (currentLine + 1). cbn [snd In]. left. reflexivity.
    + destruct Hc as [Hfit _]. congruence.
  - cbn [orb] in Hk.
    destruct (classify_line_not_named buffer key want_args n Hnamed) as [-> | ->];
      apply IH; assumption.
Qed.

(** C10, as stated, fails for a key that is in the file with a value too
    long for the caller's buffer: the line is passed over with a warning
    and the lookup returns the default ["#"]. *)
Lemma overlong_binding_returns_sentinel :
  let conf := "/etc/inzown/button.conf" in
  let fs := single_file conf
              ("CLICK_1 /" ++ repeat_char "x" 4095 ++ String LF EmptyString)%string in
  config_has_key fs conf "CLICK_1" true = true /\
  starts_with HASH
    (lk_dst (read_config_value fs conf "CLICK_1" true MAX_PATH_LENGTH "#")) = true.
Proof. vm_compute. split; reflexivity. Qed.

(** C10 (amended): a lookup with default ["#"] returns a value that
    begins with ['#'] if and only if no parsed line of the file binds the
    requested key to a value and argument shorter than the caller's bound
    [n]; that is the case when the key is not in the file and when the
    file cannot be opened.  A value taken from the file never contains
    ['#'], so the default cannot collide with a configured value.  The
    only warning a lookup writes is the one for a value that is too long,
    and a lookup that returns the default has written it exactly when
    some line names the key: such a line is passed over with the
    warning. *)
Theorem hash_sentinel_never_collides
        (fs : filesystem) (conf value_name : string) (want_args : bool) (n : Z) :
  let r := read_config_value fs conf value_name want_args n "#" in
  (starts_with HASH (lk_dst r) = true <->
   config_has_fitting_binding fs conf value_name want_args n = false) /\
  (lk_found r = true <->
   config_has_fitting_binding fs conf value_name want_args n = true) /\
  (lk_found r = true -> contains_char HASH (lk_dst r) = false) /\
  (config_has_key fs conf value_name want_args = false -> lk_dst r = "#") /\
  (fs conf = None -> lk_dst r = "#") /\
  (forall w, In w (lk_warnings r) -> exists line, w = TooLongValue line) /\
  (config_has_fitting_binding fs conf value_name want_args n = false ->
   ((exists line, In (TooLongValue line) (lk_warnings r)) <->
    config_has_key fs conf value_name want_args = true)).
Proof.
  cbv zeta.
  unfold read_config_value, config_has_fitting_binding, config_has_key.
  destruct (fs conf) as [f|].
  - pose proof (scan_config_finds_fitting value_name want_args n
                  (S (String.length f)) f 0) as Hscan.
    pose proof (fitting_binding_has_key value_name want_args n
                  (S (String.length f)) f) as Hkey.
    pose proof (scan_config_warns_overlong value_name want_args n
                  (S (String.length f)) f 0) as Hwarn.
    pose proof (scan_config_without_key value_name want_args n
                  (S (String.length f)) f 0) as Hnone.
    pose proof (scan_config_never_unexpected value_name want_args n
                  (S (String.length f)) f 0) as Hunex.
    assert (Hkinds : forall w,
               In w (snd (scan_config (S (String.length f)) f value_name
                                      want_args n 0)) ->
               exists line, w = TooLongValue line).
    { intros [line | line] Hin; [eauto | destruct (Hunex line Hin)]. }
    destruct (scan_config (S (String.length f)) f value_name want_args n 0)
      as [[[value argument]|] w]; cbn [fst snd lk_dst lk_found lk_warnings] in *.
    + destruct Hscan as [Hfit Hhash]. rewrite Hfit.
      split; [|split; [|split; [|split; [|split; [|split]]]]].
      * split; intros H; [|discriminate H].
        apply starts_with_contains in H. congruence.
      * split; reflexivity.
      * intros _. exact Hhash.
      * intros H. rewrite (Hkey Hfit) in H. discriminate H.
      * discriminate.
      * exact Hkinds.
      * discriminate.
    + rewrite Hscan.
      split; [|split; [|split; [|split; [|split; [|split]]]]].
      * split; reflexivity.
      * split; discriminate.
      * discriminate.
      * reflexivity.
      * reflexivity.
      * exact Hkinds.
      * intros _. split.
        -- intros [line Hin].
           destruct (key_present (S (String.length f)) f value_name want_args);
             [reflexivity|].
           specialize (Hnone eq_refl). inversion Hnone; subst. destruct Hin.
        -- intros Hk. apply Hwarn; [exact Hk | exact Hscan].
  - cbn [lk_dst lk_found lk_warnings].
    split; [|split; [|split; [|split; [|split; [|split]]]]].
    + split; reflexivity.
    + split; discriminate.
    + discriminate.
    + reflexivity.
    + reflexivity.
    + intros w [].
    + intros _. split; [intros [line []] | discriminate].
Qed.

Lemma hash_sentinel_never_collides_witness :
  let conf := "/etc/inzown/button.conf" in
  let fs := single_file conf "UP /usr/bin/beep # short" in
  lk_found (read_config_value fs conf "UP" true MAX_PATH_LENGTH "#") = true /\
  contains_char HASH
    (lk_dst (read_config_value fs conf "UP" true MAX_PATH_LENGTH "#")) = false.
Proof.
  cbv zeta. split; [reflexivity|].
  apply (hash_sentinel_never_collides
           (single_file "/etc/inzown/button.conf" "UP /usr/bin/beep # short")
           "/etc/inzown/button.conf" "UP" true MAX_PATH_LENGTH).
  reflexivity.
Defined.

(** ** Action resolver *)

Lemma string_append_assoc (a b c : string) :
  ((a ++ b) ++ c)%string = (a ++ (b ++ c))%string.
Proof. induction a as [|x a IH]; simpl; [reflexivity | rewrite IH; reflexivity]. Qed.

Lemma fgets_short_line (l rest : string) :
  contains_char LF l = false ->
  forall room,
    (String.length l < room)%nat ->
    fgets room (l ++ String LF rest) = ((l ++ String LF EmptyString)%string, rest).
Proof.
  induction l as [|c l IH]; intros Hl room Hroom.
  - destruct room as [|room]; [simpl in Hroom; lia|]. reflexivity.
  - destruct room as [|room]; [simpl in Hroom; lia|].
    simpl in Hl. apply Bool.orb_false_iff in Hl. destruct Hl as [Hc Hl].
    cbn [append fgets]. rewrite Hc. rewrite (IH Hl room) by (simpl in Hroom; lia).
    reflexivity.
Qed.

Lemma byte_at_line_end (l : string) (i : nat) :
  (String.length l <= i)%nat ->
  byte_at i (l ++ String LF EmptyString) = LF \/
  byte_at i (l ++ String LF EmptyString) = NUL.
Proof.
  unfold byte_at. revert i. induction l as [|c l IH]; intros i Hi.
  - destruct i as [|i]; simpl; auto.
  - destruct i as [|i]; [simpl in Hi; lia|].
    simpl. apply IH. simpl in Hi. lia.
Qed.

Lemma read_line_short_line (l rest : string) :
  fits_buffer l ->
  read_line (l ++ String LF rest) (Z.to_nat BUFFER_SIZE) =
  Some ((l ++ String LF EmptyString)%string, rest).
Proof.
  intros [Hl Hlen]. destruct buffer_size_positive as [m Hm].
  rewrite Hm in *. unfold read_line.
  replace (S (S m) - 1)%nat with (S m) in * by lia.
  replace (S (S m) - 2)%nat with m by lia.
  rewrite (fgets_short_line l rest Hl (S m) Hlen).
  destruct (l ++ String LF rest)%string eqn:E; [destruct l; discriminate E|].
  destruct (byte_at_line_end l m ltac:(lia)) as [-> | ->]; reflexivity.
Qed.

Lemma strip_line_drops_newline (l rest : string) :
  contains_char LF l = false ->
  strip_line (l ++ String LF rest) = strip_line l.
Proof.
  intros Hl. unfold strip_line. f_equal.
  induction l as [|c l IH]; simpl.
  - reflexivity.
  - simpl in Hl. apply Bool.orb_false_iff in Hl. destruct Hl as [Hc Hl].
    destruct (Ascii.eqb c NUL); [reflexivity|]. simpl.
    destruct (Ascii.eqb c HASH); [reflexivity|]. simpl.
    rewrite Hc, IH by exact Hl. reflexivity.
Qed.

Lemma classify_line_other (l rest key : string) (want_args : bool) (n : Z) :
  contains_char LF l = false ->
  line_names l key want_args = false ->
  classify_line (l ++ String LF rest) key want_args n = LineSkipped \/
  classify_line (l ++ String LF rest) key want_args n = LineOtherName.
Proof.
  intros Hl Hn.
  pose proof (classify_line_accepts (l ++ String LF rest) key want_args n) as Ha.
  pose proof (classify_line_never_unexpected (l ++ String LF rest) key want_args n)
    as Hu.
  unfold classify_line, line_names in *. cbv zeta in Ha.
  rewrite (strip_line_drops_newline l rest Hl) in *.
  destruct (1 <? slen (strip_line l)); [|auto].
  destruct (negb (slen (pl_name (split_line (strip_line l) want_args)) =? 0));
    [|contradiction].
  cbn [andb] in Hn. rewrite Hn. auto.
Qed.

(** Lines that do not name the key are read and passed over without a
    warning. *)
Lemma scan_config_skips_lines (key : string) (want_args : bool) (n : Z)
      (before : list string) :
  forall rest fuel currentLine,
    Forall (fun l => fits_buffer l /\ line_names l key want_args = false) before ->
    (String.length (file_of_lines before ++ rest) < fuel)%nat ->
    scan_config fuel (file_of_lines before ++ rest) key want_args n currentLine =
    scan_config (S (String.length rest)) rest key want_args n
                (currentLine + Z.of_nat (List.length before)).
Proof.
  induction before as [|l before IH]; intros rest fuel currentLine Hall Hfuel.
  - cbn [file_of_lines append List.length Z.of_nat] in *. rewrite Z.add_0_r.
    apply scan_config_fuel; lia.
  - inversion Hall as [|? ? [Hfit Hname] Hall']; subst.
    cbn [file_of_lines] in *. rewrite string_append_assoc in *.
    cbn [append] in *.
    destruct fuel as [|fuel]; [lia|]. cbn [scan_config].
    rewrite (read_line_short_line l _ Hfit).
    rewrite string_length_append in Hfuel. cbn [String.length] in Hfuel.
    rewrite (IH rest fuel (currentLine + 1) Hall') by lia.
    replace (currentLine + 1 + Z.of_nat (List.length before))
      with (currentLine + Z.of_nat (List.length (l :: before)))
      by (cbn [List.length]; lia).
    destruct Hfit as [Hl _].
    destruct (classify_line_other l EmptyString key want_args n Hl Hname)
      as [-> | ->]; reflexivity.
Qed.

Lemma lookup_click_1 (fs : filesystem) (conf tail : string) (before : list string) :
  fs conf = Some (file_of_lines before ++ "CLICK_1 /bin/echo one" ++ tail)%string ->
  Forall (fun l => fits_buffer l /\ line_names l "CLICK_1" true = false) before ->
  tail = EmptyString \/ (exists post, tail = String LF post) ->
  read_config_value fs conf "CLICK_1" true MAX_PATH_LENGTH "#" =
  mkLookup true "/bin/echo" "one" [].
Proof.
  intros Hfs Hbefore Htail. unfold read_config_value. rewrite Hfs.
  rewrite (scan_config_skips_lines "CLICK_1" true MAX_PATH_LENGTH before
             ("CLICK_1 /bin/echo one" ++ tail)%string _ 0 Hbefore) by lia.
  destruct Htail as [-> | [post ->]]; vm_compute; reflexivity.
Qed.

(** C1, as stated, fails: the reader splits the value region at its
    first run of blanks, so the line gives the value [/bin/echo] with the
    argument [one], and an argument takes the place of the click count. *)
Lemma click_1_does_not_append_count :
  execute_action dirname_plain
    (single_file "/etc/inzown/button.conf"
                 ("CLICK_1 /bin/echo one" ++ String LF EmptyString)%string)
    initial_globals A_CLICK 1 0
  <> ExecSystem "/bin/echo one 1".
Proof. vm_compute. intros H. discriminate H. Qed.

(** C1 (amended): if the configuration file holds the line
    [CLICK_1 /bin/echo one], behind lines that do not name [CLICK_1], a
    CLICK with count 1 and hold time 0 runs the command line
    [/bin/echo one]: the value is [/bin/echo], the argument is [one], and
    the click count is not appended. *)
Theorem click_1_runs_echo_one
        (dirname_buffer : string -> string) (fs : filesystem) (g : globals)
        (before : list string) (tail : string) :
  fs (g_config_path g) =
    Some (file_of_lines before ++ "CLICK_1 /bin/echo one" ++ tail)%string ->
  Forall (fun l => fits_buffer l /\ line_names l "CLICK_1" true = false) before ->
  tail = EmptyString \/ (exists post, tail = String LF post) ->
  execute_action dirname_buffer fs g A_CLICK 1 0 = ExecSystem "/bin/echo one".
Proof.
  intros Hfs Hbefore Htail.
  unfold execute_action, get_action_script_path.
  change (get_action_name g A_CLICK 1 0) with "CLICK_1".
  unfold get_action_script.
  rewrite (lookup_click_1 fs (g_config_path g) tail before Hfs Hbefore Htail).
  vm_compute. reflexivity.
Qed.

Lemma short_line_fits_buffer (l : string) :
  contains_char LF l = false ->
  (String.length l < 100)%nat ->
  fits_buffer l.
Proof.
  intros Hl Hlen. split; [exact Hl|].
  destruct buffer_size_positive as [m Hm].
  assert (Hbig : (100 < Z.to_nat BUFFER_SIZE - 1)%nat).
  { unfold BUFFER_SIZE, MAX_PATH_LENGTH. lia. }
  lia.
Qed.

Lemma click_1_runs_echo_one_witness :
  execute_action dirname_plain
    (single_file "/etc/inzown/button.conf"
       (file_of_lines ["# button bindings"; "DOWN /bin/true"]
        ++ "CLICK_1 /bin/echo one" ++ String LF "UP /bin/true")%string)
    initial_globals A_CLICK 1 0
  = ExecSystem "/bin/echo one".
Proof.
  apply (click_1_runs_echo_one dirname_plain
           (single_file "/etc/inzown/button.conf"
              (file_of_lines ["# button bindings"; "DOWN /bin/true"]
               ++ "CLICK_1 /bin/echo one" ++ String LF "UP /bin/true")%string)
           initial_globals ["# button bindings"; "DOWN /bin/true"]
           (String LF "UP /bin/true")).
  - reflexivity.
  - apply Forall_cons; [| apply Forall_cons; [| apply Forall_nil]];
      (split; [apply short_line_fits_buffer; [reflexivity | simpl; lia]
              | reflexivity]).
  - right. exists "UP /bin/true". reflexivity.
Defined.

Example click_1_with_three_words :
  execute_action dirname_plain
    (single_file "/etc/inzown/button.conf" "CLICK_1 /bin/echo one two three")
    initial_globals A_CLICK 1 0
  = ExecSystem "/bin/echo one two three".
Proof. reflexivity. Qed.

Example click_count_is_appended_without_argument :
  execute_action dirname_plain
    (single_file "/etc/inzown/button.conf" "CLICK_1 /bin/echo")
    initial_globals A_CLICK 1 0
  = ExecSystem "/bin/echo 1".
Proof. reflexivity. Qed.

Example relative_script_is_resolved :
  execute_action dirname_plain
    (single_file "/etc/inzown/button.conf" "HOLD_OTHER long.sh")
    initial_globals A_HOLD 2 250000
  = ExecSystem "/etc/inzown/long.sh 2 250000".
Proof. reflexivity. Qed.

(** ** Start-up *)

Lemma strncmp_eq_short (n : nat) :
  forall a b,
    (String.length a < n)%nat -> strncmp_eq a b n = true -> b = a.
Proof.
  induction n as [|n IH]; intros a b Hlen H; [lia|].
  destruct a as [|x a], b as [|y b]; simpl in *; try discriminate; [reflexivity|].
  apply Bool.andb_true_iff in H. destruct H as [Hxy Hrest].
  apply Ascii.eqb_eq in Hxy. subst y. f_equal. apply IH; [lia | exact Hrest].
Qed.

(** The comparison over 16 bytes takes in the terminator of the 15-byte
    prefix: it succeeds only for the entry that is the bare prefix. *)
Lemma env_prefix_matches_only_itself (e : string) :
  strncmp_eq ENV_PREFIX e 16 = true -> e = ENV_PREFIX.
Proof. apply strncmp_eq_short. unfold ENV_PREFIX. simpl. lia. Qed.

(** No entry of the environment changes the configuration path. *)
Lemma scan_environment_keeps_path (envp : list string) :
  forall config_path p, scan_environment envp config_path = Some p -> p = config_path.
Proof.
  induction envp as [|e envp IH]; intros config_path p H;
    cbn [scan_environment] in H.
  - inversion H. reflexivity.
  - destruct (strncmp_eq ENV_PREFIX e 16) eqn:E.
    + apply env_prefix_matches_only_itself in E. subst e.
      vm_compute in H. discriminate H.
    + apply IH, H.
Qed.

(** With [--conf], the environment is not looked at. *)
Lemma conf_flag_wins (fs : filesystem) (prog path : string) (envp : list string) :
  exists g, main fs [prog; "--conf"; path] envp = MainRun g /\
            g_config_path g = take (Z.to_nat MAX_PATH_LENGTH) path.
Proof.
  unfold main. cbn [tl parse_args]. cbv iota beta.
  change (String.eqb "--conf" "--help") with false.
  change (String.eqb "--conf" "--version") with false.
  change (String.eqb "--conf" "--full-time") with false.
  change (String.eqb "--conf" "--offset-time") with false.
  change (String.eqb "--conf" "--help-time") with false.
  change (String.eqb "--conf" "--debug") with false.
  change (String.eqb "--conf" "-q") with false.
  change (String.eqb "--conf" "--conf") with true.
  cbv iota. cbn [conf_path_specified click_count_limit_specified negb ar_globals].
  destruct (read_config_uint _ _ _ _) as [b limit].
  eexists. split; reflexivity.
Qed.

(** C2: evaluation of [main] at the failing input.  With no [--conf] on
    the command line and [INZOWN_BTN_CFG=/tmp/button.conf] in the
    environment, the program goes on with the built-in path. *)
Theorem env_config_path_is_ignored (fs : filesystem) :
  exists g,
    main fs ["inzown-btn"] ["INZOWN_BTN_CFG=/tmp/button.conf"] = MainRun g /\
    g_config_path g = "/etc/inzown/button.conf".
Proof.
  unfold main. cbn [tl parse_args conf_path_specified negb ar_globals].
  change (scan_environment ["INZOWN_BTN_CFG=/tmp/button.conf"]
                           (g_config_path initial_globals))
    with (Some "/etc/inzown/button.conf").
  cbv iota. cbn [click_count_limit_specified negb].
  destruct (read_config_uint _ _ _ _) as [b limit].
  eexists. split; reflexivity.
Qed.

(* ================================================================== *)
(** * Further properties *)

(** ** Seconds quantizer: the four tables of the time help *)

Lemma quot_euclid (a b : Z) :
  0 <= a -> 0 < b -> b * (a ÷ b) <= a < b * (a ÷ b) + b.
Proof.
  intros Ha Hb. rewrite Z.quot_div_nonneg by lia.
  pose proof (Z.mul_div_le a b Hb).
  pose proof (Z.mul_succ_div_gt a b Hb). lia.
Qed.

(** X1: in the default regime a hold of less than three seconds reports
    1, and from one second on the reported value [s] is the odd number
    with [s <= ticks/1000 < s + 2]. *)
Theorem seconds_default_table (g : globals) (ticks : Z) :
  g_full_time g = false -> g_offset_time g = false ->
  400 <= ticks -> ticks <= INT_MAX ->
  (ticks < 3000 -> seconds g ticks = 1) /\
  (1000 <= ticks ->
   1000 * seconds g ticks <= ticks < 1000 * seconds g ticks + 2000).
Proof.
  intros Hf Ho H1 H2. rewrite seconds_default by (auto; lia).
  unfold odd_seconds_formula.
  destruct (Z_lt_le_dec ticks 1000) as [Hlt | Hge].
  - rewrite quot_small_negative by lia. split; intros; lia.
  - pose proof (quot_euclid (ticks - 1000) 2000 ltac:(lia) ltac:(lia)).
    split; intros; lia.
Qed.

Lemma seconds_default_table_witness :
  seconds initial_globals 2999 = 1 /\
  1000 * seconds initial_globals 5400 <= 5400 < 1000 * seconds initial_globals 5400 + 2000.
Proof.
  split.
  - apply (seconds_default_table initial_globals 2999);
      unfold INT_MAX; try reflexivity; lia.
  - apply (seconds_default_table initial_globals 5400);
      unfold INT_MAX; try reflexivity; lia.
Defined.

(** X2: with [--offset-time] alone the reported value [s] is odd and
    within one second of the hold: [s - 1 <= ticks/1000 < s + 1]. *)
Theorem seconds_offset_table (g : globals) (ticks : Z) :
  g_full_time g = false -> g_offset_time g = true ->
  0 <= ticks -> ticks <= INT_MAX ->
  Z.odd (seconds g ticks) = true /\
  1000 * (seconds g ticks - 1) <= ticks < 1000 * (seconds g ticks + 1).
Proof.
  intros Hf Ho H1 H2. rewrite seconds_offset by (auto; lia).
  pose proof (quot_euclid ticks 1000 H1 ltac:(lia)) as Hq.
  assert (Hs : 0 <= ticks ÷ 1000) by (apply Z.quot_pos; lia).
  rewrite Z.rem_mod_nonneg by lia.
  pose proof (Zmod_odd (ticks ÷ 1000 + Z.modulo (ticks ÷ 1000 + 1) 2)) as Hodd.
  pose proof (Z.mod_pos_bound (ticks ÷ 1000 + 1) 2 ltac:(lia)) as Hr.
  split.
  - destruct (Z.odd _); [reflexivity|].
    exfalso. revert Hodd. generalize (ticks ÷ 1000). intros q Hodd.
    pose proof (Z.div_mod (q + 1) 2 ltac:(lia)).
    pose proof (Z.div_mod (q + (q + 1) mod 2) 2 ltac:(lia)).
    pose proof (Z.mod_pos_bound (q + 1) 2 ltac:(lia)). lia.
  - lia.
Qed.

Lemma seconds_offset_table_witness :
  let g := set_offset_time initial_globals true in
  Z.odd (seconds g 4100) = true /\
  1000 * (seconds g 4100 - 1) <= 4100 < 1000 * (seconds g 4100 + 1).
Proof.
  apply (seconds_offset_table (set_offset_time initial_globals true) 4100);
    unfold INT_MAX; try reflexivity; lia.
Defined.

(** X3: with [--full-time] alone the reported value is the whole number
    of seconds held: [s <= ticks/1000 < s + 1]. *)
Theorem seconds_full_table (g : globals) (ticks : Z) :
  g_full_time g = true -> g_offset_time g = false ->
  0 <= ticks -> ticks <= INT_MAX ->
  0 <= seconds g ticks /\
  1000 * seconds g ticks <= ticks < 1000 * seconds g ticks + 1000.
Proof.
  intros Hf Ho H1 H2. rewrite seconds_full by (auto; lia).
  pose proof (quot_euclid ticks 1000 H1 ltac:(lia)).
  split; [apply Z.quot_pos; lia | lia].
Qed.

Lemma seconds_full_table_witness :
  let g := set_full_time initial_globals true in
  0 <= seconds g 999 /\
  1000 * seconds g 999 <= 999 < 1000 * seconds g 999 + 1000.
Proof.
  apply (seconds_full_table (set_full_time initial_globals true) 999);
    unfold INT_MAX; try reflexivity; lia.
Defined.

(** X4: with both flags the reported value is the hold rounded to the
    nearest second, a half rounding up, as long as [ticks + 500] is an
    [int]. *)
Theorem seconds_full_offset_table (g : globals) (ticks : Z) :
  g_full_time g = true -> g_offset_time g = true ->
  0 <= ticks -> ticks <= INT_MAX - 500 ->
  1000 * seconds g ticks - 500 <= ticks < 1000 * seconds g ticks + 500.
Proof.
  intros Hf Ho H1 H2. rewrite seconds_full_offset by (auto; lia).
  pose proof (quot_euclid (ticks + 500) 1000 ltac:(lia) ltac:(lia)). lia.
Qed.

Lemma seconds_full_offset_table_witness :
  let g := set_full_time (set_offset_time initial_globals true) true in
  1000 * seconds g 1500 - 500 <= 1500 < 1000 * seconds g 1500 + 500.
Proof.
  apply (seconds_full_offset_table
           (set_full_time (set_offset_time initial_globals true) true) 1500);
    unfold INT_MAX; try reflexivity; lia.
Defined.

(** ** Decimal output and input *)

Lemma digit_value_digit_char (d : Z) :
  0 <= d < 10 -> digit_value (digit_char d) = Some d.
Proof.
  intros H.
  assert (Hd : d = 0 \/ d = 1 \/ d = 2 \/ d = 3 \/ d = 4 \/ d = 5 \/ d = 6 \/
               d = 7 \/ d = 8 \/ d = 9) by lia.
  repeat (destruct Hd as [-> | Hd]; [reflexivity|]). subst. reflexivity.
Qed.

Lemma digit_char_plain (d : Z) (rest : string) :
  0 <= d < 10 ->
  skip_isspace (String (digit_char d) rest) = String (digit_char d) rest /\
  strip_sign (String (digit_char d) rest) = (false, String (digit_char d) rest).
Proof.
  intros H.
  assert (Hd : d = 0 \/ d = 1 \/ d = 2 \/ d = 3 \/ d = 4 \/ d = 5 \/ d = 6 \/
               d = 7 \/ d = 8 \/ d = 9) by lia.
  repeat (destruct Hd as [-> | Hd]; [split; reflexivity|]). subst. split; reflexivity.
Qed.

Lemma utoa_aux_head (fuel : nat) :
  forall n acc,
    0 <= n ->
    exists d rest, 0 <= d < 10 /\ utoa_aux (S fuel) n acc = String (digit_char d) rest.
Proof.
  induction fuel as [|fuel IH]; intros n acc Hn; cbn [utoa_aux].
  - exists (n mod 10), acc. split; [apply Z.mod_pos_bound; lia|].
    destruct (n <? 10); reflexivity.
  - destruct (n <? 10) eqn:E.
    + exists (n mod 10), acc. split; [apply Z.mod_pos_bound; lia | reflexivity].
    + apply IH. apply Z.div_pos; lia.
Qed.

Lemma read_digits_utoa_aux (fuel : nat) :
  forall n acc,
    0 <= n -> n < 10 ^ Z.of_nat (S fuel) ->
    exists d, 0 <= d /\
      forall a seen,
        read_digits (utoa_aux (S fuel) n acc) a seen =
        read_digits acc (a * 10 ^ d + n) true.
Proof.
  assert (Hone : forall n acc a seen,
             0 <= n < 10 ->
             read_digits (String (digit_char (n mod 10)) acc) a seen =
             read_digits acc (a * 10 ^ 1 + n) true).
  { intros n acc a seen Hn. cbn [read_digits]. rewrite Z.mod_small by lia.
    rewrite digit_value_digit_char by lia. f_equal; lia. }
  induction fuel as [|fuel IH]; intros n acc Hn Hlt.
  - exists 1. split; [lia|]. intros a seen. cbn [utoa_aux].
    change (Z.of_nat 1) with 1 in Hlt.
    destruct (n <? 10); apply Hone; lia.
  - remember (S fuel) as fuel1 eqn:Hf1. cbn [utoa_aux].
    destruct (n <? 10) eqn:E.
    + apply Z.ltb_lt in E. exists 1. split; [lia|]. intros a seen.
      apply Hone; lia.
    + apply Z.ltb_ge in E.
      assert (Hdiv : 0 <= n / 10 < 10 ^ Z.of_nat fuel1).
      { split; [apply Z.div_pos; lia|].
        apply Z.div_lt_upper_bound; [lia|].
        rewrite Nat2Z.inj_succ, Z.pow_succ_r in Hlt by lia. lia. }
      subst fuel1.
      destruct (IH (n / 10) (String (digit_char (n mod 10)) acc)
                   (proj1 Hdiv) (proj2 Hdiv)) as [d [Hd Hread]].
      exists (d + 1). split; [lia|]. intros a seen. rewrite Hread.
      cbn [read_digits].
      rewrite digit_value_digit_char by (apply Z.mod_pos_bound; lia).
      f_equal. rewrite Z.pow_add_r by lia.
      pose proof (Z.div_mod n 10 ltac:(lia)). lia.
Qed.

Lemma strtoul_unfold (s : string) :
  strtoul s =
  let '(neg, s2) := strip_sign (skip_isspace s) in
  let '(v, seen, rest) := read_digits s2 0 false in
  if seen then
    if ULONG_MAX <? v then (ULONG_MAX, Some rest)
    else ((if neg then u64 (- v) else v), Some rest)
  else (0, None).
Proof. reflexivity. Qed.

Lemma strtoul_utoa (n : Z) :
  0 <= n -> n <= ULONG_MAX -> strtoul (utoa n) = (n, Some EmptyString).
Proof.
  intros H0 H1. rewrite strtoul_unfold. unfold utoa.
  destruct (utoa_aux_head 19 n EmptyString H0) as (d & rest & Hd & Hhead).
  destruct (digit_char_plain d rest Hd) as [Hsp Hsign].
  rewrite Hhead, Hsp, Hsign, <- Hhead.
  destruct (read_digits_utoa_aux 19 n EmptyString H0) as [k [Hk Hread]].
  { unfold ULONG_MAX in H1. change (Z.of_nat 20) with 20. lia. }
  rewrite Hread. cbn [read_digits]. rewrite Z.mul_0_l, Z.add_0_l.
  replace (ULONG_MAX <? n) with false by (symmetry; apply Z.ltb_ge; lia).
  reflexivity.
Qed.

(** X5: what the program prints with [%u] it reads back with
    [parse_uint]: for every [unsigned long] value [n] the decimal text of
    [n] is accepted and gives [n] reduced to 32 bits. *)
Theorem parse_uint_of_decimal (n : Z) :
  0 <= n -> n <= ULONG_MAX -> parse_uint (utoa n) = (true, u32 n).
Proof.
  intros H0 H1. unfold parse_uint. rewrite strtoul_utoa by assumption.
  reflexivity.
Qed.

Lemma parse_uint_of_decimal_witness :
  parse_uint (utoa 4294967304) = (true, 8).
Proof.
  apply (parse_uint_of_decimal 4294967304); unfold ULONG_MAX; lia.
Defined.

Lemma skip_isspace_last (c : ascii) (s : string) :
  skip_isspace (s ++ String c EmptyString) = EmptyString \/
  exists s', skip_isspace (s ++ String c EmptyString) = (s' ++ String c EmptyString)%string.
Proof.
  induction s as [|x s IH]; cbn [append skip_isspace].
  - destruct (isspace c); [left; reflexivity | right; exists EmptyString; reflexivity].
  - destruct (isspace x); [exact IH|].
    right. exists (String x s). reflexivity.
Qed.

Lemma strip_sign_cases (c : ascii) (r : string) :
  strip_sign (String c r) = (true, r) \/
  strip_sign (String c r) = (false, r) \/
  strip_sign (String c r) = (false, String c r).
Proof.
  destruct c as [[] [] [] [] [] [] [] []]; cbn; auto.
Qed.

Lemma strip_sign_last (c : ascii) (s : string) :
  snd (strip_sign (s ++ String c EmptyString)) = EmptyString \/
  exists s', snd (strip_sign (s ++ String c EmptyString))
             = (s' ++ String c EmptyString)%string.
Proof.
  destruct s as [|x s]; cbn [append].
  - destruct (strip_sign_cases c EmptyString) as [-> | [-> | ->]]; cbn [snd]; auto.
    right. exists EmptyString. reflexivity.
  - destruct (strip_sign_cases x (s ++ String c EmptyString)) as [-> | [-> | ->]];
      cbn [snd].
    + right. exists s. reflexivity.
    + right. exists s. reflexivity.
    + right. exists (String x s). reflexivity.
Qed.

Lemma read_digits_stops (c : ascii) (s : string) :
  digit_value c = None ->
  forall a seen,
    snd (read_digits (s ++ String c EmptyString) a seen) <> EmptyString.
Proof.
  intros Hc. induction s as [|x s IH]; intros a seen; cbn [append read_digits].
  - rewrite Hc. cbn [snd]. discriminate.
  - destruct (digit_value x); [apply IH | cbn [snd]; discriminate].
Qed.

(** X6: [parse_uint] accepts no text with a byte behind the number: a
    string that ends in a byte other than a decimal digit is refused, and
    the destination is set to 0. *)
Theorem parse_uint_refuses_trailing_byte (s : string) (c : ascii) :
  digit_value c = None ->
  parse_uint (s ++ String c EmptyString) = (false, 0).
Proof.
  intros Hc. unfold parse_uint. rewrite strtoul_unfold.
  destruct (skip_isspace_last c s) as [-> | [s1 ->]]; [reflexivity|].
  pose proof (strip_sign_last c s1) as Hsign.
  destruct (strip_sign (s1 ++ String c EmptyString)) as [neg s2].
  cbn [snd] in Hsign. cbv zeta beta iota.
  destruct Hsign as [-> | [s3 ->]]; [reflexivity|].
  pose proof (read_digits_stops c s3 Hc 0 false) as Hrest.
  destruct (read_digits (s3 ++ String c EmptyString) 0 false) as [[v seen] rest].
  cbn [snd] in Hrest.
  destruct seen; [|reflexivity].
  destruct (ULONG_MAX <? v); destruct rest; try reflexivity; contradiction.
Qed.

Lemma parse_uint_refuses_trailing_byte_witness :
  parse_uint ("5" ++ String " "%char EmptyString) = (false, 0).
Proof.
  apply (parse_uint_refuses_trailing_byte "5" " "%char). reflexivity.
Defined.

(** ** Action names *)

Lemma utoa_injective (m n : Z) :
  0 <= m -> m <= ULONG_MAX -> 0 <= n -> n <= ULONG_MAX ->
  utoa m = utoa n -> m = n.
Proof.
  intros Hm0 Hm1 Hn0 Hn1 H.
  pose proof (strtoul_utoa m Hm0 Hm1) as Em.
  pose proof (strtoul_utoa n Hn0 Hn1) as En.
  rewrite H in Em. rewrite Em in En. inversion En. reflexivity.
Qed.

Lemma utoa_not_other (n : Z) :
  0 <= n -> n <= ULONG_MAX -> utoa n <> "OTHER".
Proof.
  intros H0 H1 H. pose proof (strtoul_utoa n H0 H1) as E.
  rewrite H in E. vm_compute in E. discriminate E.
Qed.

(** X7: the action name identifies the event among the four kinds: equal
    names come from the same kind, and for CLICK from the same click
    count, unless both counts are above 99 and share [CLICK_OTHER]. *)
Theorem action_name_identifies_event
        (g : globals) (a1 a2 : action_e) (c1 c2 h1 h2 : Z) :
  a1 <> A_COUNT -> a2 <> A_COUNT ->
  in_u32 c1 -> in_u32 c2 ->
  get_action_name g a1 c1 h1 = get_action_name g a2 c2 h2 ->
  a1 = a2 /\ (a1 = A_CLICK -> c1 = c2 \/ (99 < c1 /\ 99 < c2)).
Proof.
  unfold in_u32, UINT_MAX.
  intros Ha1 Ha2 Hc1 Hc2 H.
  destruct a1, a2; try contradiction; cbn [get_action_name] in H; cbv zeta in H;
    unfold ABSOLUTE_MAX_CLICK, ABSOLUTE_MAX_HOLD, DOWN_VALUE_NAME, UP_VALUE_NAME,
      CLICK_NAME_PREFIX, CLICK_OTHER_VALUE_NAME, HOLD_NAME_PREFIX,
      HOLD_NAME_SUFFIX, HOLD_OTHER_VALUE_NAME in H;
    repeat match type of H with
           | context [utoa ?x] =>
               let u := fresh "u" in remember (utoa x) as u
           end;
    repeat match type of H with
           | context [if ?b then _ else _] => destruct b eqn:?
           end;
    cbn [append] in H;
    try discriminate H;
    (split; [reflexivity | intros Hk; try discriminate Hk]).
  - left. inversion H as [Hu]. subst u u0.
    apply utoa_injective in Hu; unfold ULONG_MAX; lia.
  - exfalso. inversion H as [Hu]. subst u.
    apply (utoa_not_other c1); unfold ULONG_MAX; try lia. exact Hu.
  - exfalso. inversion H as [Hu]. rewrite Hequ0 in Hu.
    apply (utoa_not_other c2); unfold ULONG_MAX; try lia. symmetry. exact Hu.
  - right. rewrite Z.leb_gt in *. lia.
Qed.

Lemma action_name_identifies_event_witness :
  A_CLICK = A_CLICK /\ (A_CLICK = A_CLICK -> 100 = 2000 \/ (99 < 100 /\ 99 < 2000)).
Proof.
  apply (action_name_identifies_event initial_globals A_CLICK A_CLICK 100 2000 0 0);
    try discriminate; try (unfold in_u32, UINT_MAX; lia); reflexivity.
Defined.

(** ** Configuration reader: reading lines *)





(** ** Configuration reader: lookups *)

(** X10: a lookup of a key that no line of the file names, or in a file
    that cannot be opened, gives the caller's default value and an empty
    argument, and writes no warning. *)
Theorem lookup_without_key
        (fs : filesystem) (conf key default_value : string)
        (want_args : bool) (n : Z) :
  config_has_key fs conf key want_args = false ->
  read_config_value fs conf key want_args n default_value =
  mkLookup false default_value EmptyString [].
Proof.
  unfold config_has_key, read_config_value. intros H.
  destruct (fs conf) as [f|]; [|reflexivity].
  rewrite (scan_config_without_key key want_args n _ f 0 H). reflexivity.
Qed.

Lemma lookup_without_key_witness :
  read_config_value (single_file "/etc/inzown/button.conf" "UP /bin/true # DOWN x")
                    "/etc/inzown/button.conf" "DOWN" true MAX_PATH_LENGTH "#" =
  mkLookup false "#" EmptyString [].
Proof.
  apply (lookup_without_key
           (single_file "/etc/inzown/button.conf" "UP /bin/true # DOWN x")
           "/etc/inzown/button.conf" "DOWN" "#" true MAX_PATH_LENGTH).
  reflexivity.
Defined.

Lemma scan_config_result_fits (key : string) (want_args : bool) (n : Z) (fuel : nat) :
  forall f currentLine value argument,
    fst (scan_config fuel f key want_args n currentLine) = Some (value, argument) ->
    slen value < n /\ slen argument < n.
Proof.
  induction fuel as [|fuel IH]; intros f currentLine value argument H;
    cbn [scan_config] in H; [discriminate H|].
  destruct (read_line f (Z.to_nat BUFFER_SIZE)) as [[buffer rest]|];
    [|discriminate H].
  pose proof (classify_line_accepts buffer key want_args n) as Hc. cbv zeta in Hc.
  destruct (classify_line buffer key want_args n);
    try (destruct (scan_config fuel rest key want_args n (currentLine + 1))
           as [r w] eqn:E;
         apply (IH rest (currentLine + 1)); rewrite E; exact H).
  cbn [fst] in H. inversion H; subst.
  destruct Hc as (Hfit & -> & ->).
  rewrite !Bool.andb_true_iff, !Z.ltb_lt in Hfit. lia.
Qed.

(** X11: a value and an argument taken from the file always fit the
    caller's buffers: each is shorter than the bound [n], so that the
    copy with its terminator stays within [n] bytes. *)
Theorem found_value_fits
        (fs : filesystem) (conf key default_value : string)
        (want_args : bool) (n : Z) :
  let r := read_config_value fs conf key want_args n default_value in
  lk_found r = true -> slen (lk_dst r) < n /\ slen (lk_args r) < n.
Proof.
  cbv zeta. unfold read_config_value.
  destruct (fs conf) as [f|]; [|discriminate].
  pose proof (scan_config_result_fits key want_args n (S (String.length f)) f 0) as H.
  destruct (scan_config (S (String.length f)) f key want_args n 0)
    as [[[value argument]|] w]; cbn [lk_found lk_dst lk_args fst] in *;
    [|discriminate].
  intros _. apply H. reflexivity.
Qed.

Lemma found_value_fits_witness :
  let r := read_config_value (single_file "b.conf" "CLICK_COUNT_LIMIT 3")
                             "b.conf" "CLICK_COUNT_LIMIT" false 12 "#" in
  slen (lk_dst r) < 12 /\ slen (lk_args r) < 12.
Proof.
  apply (found_value_fits (single_file "b.conf" "CLICK_COUNT_LIMIT 3")
                          "b.conf" "CLICK_COUNT_LIMIT" "#" false 12).
  reflexivity.
Defined.

Lemma lookup_first_binding
      (fs : filesystem) (conf key default_value : string) (want_args : bool) (n : Z)
      (before : list string) (l rest : string) :
  fs conf = Some (file_of_lines before ++ l ++ String LF rest)%string ->
  Forall (fun b => fits_buffer b /\ line_names b key want_args = false) before ->
  fits_buffer l ->
  line_names l key want_args = true ->
  slen (pl_value (split_line (strip_line l) want_args)) < n ->
  slen (pl_argument (split_line (strip_line l) want_args)) < n ->
  read_config_value fs conf key want_args n default_value =
  mkLookup true (pl_value (split_line (strip_line l) want_args))
           (pl_argument (split_line (strip_line l) want_args)) [].
Proof.
  intros Hfs Hbefore Hfit Hname Hv Ha. unfold read_config_value. rewrite Hfs.
  rewrite (scan_config_skips_lines key want_args n before
             (l ++ String LF rest)%string _ 0 Hbefore) by lia.
  cbn [scan_config]. rewrite (read_line_short_line l rest Hfit).
  pose proof (classify_line_accepts (l ++ String LF EmptyString) key want_args n)
    as Hc.
  cbv zeta in Hc. destruct Hfit as [Hl _].
  rewrite (strip_line_drops_newline l EmptyString Hl) in Hc.
  unfold line_names in Hname. cbv zeta in Hname. rewrite Hname in Hc.
  apply Z.ltb_lt in Hv, Ha. rewrite Hv, Ha in Hc. cbn [andb] in Hc.
  destruct (classify_line (l ++ String LF EmptyString) key want_args n);
    try discriminate Hc.
  destruct Hc as (_ & -> & ->). reflexivity.
Qed.

(** X12: the first line that names the key decides the lookup.  If the
    lines before it do not name the key and its value and argument fit
    the bound, the lookup returns what that line holds, whatever follows
    it in the file, and writes no warning. *)
Theorem first_binding_wins
        (fs : filesystem) (conf key default_value : string) (want_args : bool) (n : Z)
        (before : list string) (l rest : string) :
  fs conf = Some (file_of_lines before ++ l ++ String LF rest)%string ->
  Forall (fun b => fits_buffer b /\ line_names b key want_args = false) before ->
  fits_buffer l ->
  line_names l key want_args = true ->
  slen (pl_value (split_line (strip_line l) want_args)) < n ->
  slen (pl_argument (split_line (strip_line l) want_args)) < n ->
  read_config_value fs conf key want_args n default_value =
  mkLookup true (pl_value (split_line (strip_line l) want_args))
           (pl_argument (split_line (strip_line l) want_args)) [].
Proof. apply lookup_first_binding. Qed.

Lemma first_binding_wins_witness :
  read_config_value
    (single_file "b.conf"
       (file_of_lines ["# bindings"; "DOWN /bin/true"]
        ++ "UP /bin/a one" ++ String LF "UP /bin/b two")%string)
    "b.conf" "UP" true MAX_PATH_LENGTH "#"
  = mkLookup true "/bin/a" "one" [].
Proof.
  apply (first_binding_wins
           (single_file "b.conf"
              (file_of_lines ["# bindings"; "DOWN /bin/true"]
               ++ "UP /bin/a one" ++ String LF "UP /bin/b two")%string)
           "b.conf" "UP" "#" true MAX_PATH_LENGTH
           ["# bindings"; "DOWN /bin/true"] "UP /bin/a one" "UP /bin/b two").
  - reflexivity.
  - apply Forall_cons; [| apply Forall_cons; [| apply Forall_nil]];
      (split; [apply short_line_fits_buffer; [reflexivity | simpl; lia]
              | reflexivity]).
  - apply short_line_fits_buffer; [reflexivity | simpl; lia].
  - reflexivity.
  - vm_compute. reflexivity.
  - vm_compute. reflexivity.
Defined.

Lemma cstr_id (s : string) :
  all_chars (fun c => negb (Ascii.eqb c NUL)) s = true -> cstr s = s.
Proof.
  induction s as [|c s IH]; simpl; intros H; [reflexivity|].
  apply Bool.andb_true_iff in H. destruct H as [Hc Hs].
  apply Bool.negb_true_iff in Hc. rewrite Hc, IH by exact Hs. reflexivity.
Qed.

Lemma truncate_at_id (c : ascii) (s : string) :
  all_chars (fun d => negb (Ascii.eqb d c)) s = true -> truncate_at c s = s.
Proof.
  induction s as [|d s IH]; simpl; intros H; [reflexivity|].
  apply Bool.andb_true_iff in H. destruct H as [Hd Hs].
  apply Bool.negb_true_iff in Hd. rewrite Hd, IH by exact Hs. reflexivity.
Qed.

Lemma all_chars_weaken (p q : ascii -> bool) (s : string) :
  (forall c, p c = true -> q c = true) ->
  all_chars p s = true -> all_chars q s = true.
Proof.
  intros Hpq. induction s as [|c s IH]; simpl; intros H; [reflexivity|].
  apply Bool.andb_true_iff in H. destruct H as [Hc Hs].
  rewrite (Hpq c Hc), IH by exact Hs. reflexivity.
Qed.

Lemma all_chars_app (p : ascii -> bool) (a b : string) :
  all_chars p (a ++ b) = (all_chars p a && all_chars p b)%bool.
Proof.
  induction a as [|c a IH]; simpl; [reflexivity|].
  rewrite IH, Bool.andb_assoc. reflexivity.
Qed.

Lemma word_char_text (c : ascii) : word_char c = true -> text_char c = true.
Proof.
  unfold word_char, text_char. intros H.
  apply Bool.negb_true_iff in H. apply Bool.negb_true_iff.
  apply Bool.orb_false_iff in H. tauto.
Qed.

Lemma word_char_not_blank (c : ascii) :
  word_char c = true -> mem_char c WHITESPACE_CHARS = false.
Proof.
  unfold word_char. intros H.
  apply Bool.negb_true_iff in H. apply Bool.orb_false_iff in H. tauto.
Qed.

Lemma text_char_parts (c : ascii) :
  text_char c = true ->
  negb (Ascii.eqb c NUL) = true /\ negb (Ascii.eqb c HASH) = true /\
  negb (Ascii.eqb c LF) = true.
Proof.
  unfold text_char. intros H. apply Bool.negb_true_iff in H.
  rewrite !Bool.orb_false_iff in H. rewrite !Bool.negb_true_iff. tauto.
Qed.

Lemma strpbrk_word (w rest : string) :
  all_chars word_char w = true ->
  strpbrk (w ++ String SPACE rest) WHITESPACE_CHARS = Some (w, String SPACE rest).
Proof.
  induction w as [|c w IH]; cbn [append strpbrk all_chars]; intros H.
  - reflexivity.
  - apply Bool.andb_true_iff in H. destruct H as [Hc Hw].
    rewrite (word_char_not_blank c Hc), (IH Hw). reflexivity.
Qed.

Lemma skip_span_id (s : string) :
  skip_span WHITESPACE_CHARS s = s <->
  (s = EmptyString \/ exists c r, s = String c r /\ mem_char c WHITESPACE_CHARS = false).
Proof.
  split.
  - intros H. destruct s as [|c r]; [left; reflexivity|].
    right. exists c, r. split; [reflexivity|].
    apply (skip_span_head WHITESPACE_CHARS (String c r) c r H).
  - intros [-> | (c & r & -> & Hc)]; [reflexivity|].
    cbn [skip_span]. rewrite Hc. reflexivity.
Qed.

Lemma strip_line_of_text (l : string) :
  all_chars text_char l = true ->
  skip_span WHITESPACE_CHARS l = l ->
  strip_line l = l.
Proof.
  intros Ht Hs. unfold strip_line.
  rewrite (cstr_id l), (truncate_at_id HASH l), (truncate_at_id LF l);
    try exact Hs;
    (eapply all_chars_weaken; [|exact Ht]); intros c Hc;
    apply text_char_parts in Hc; tauto.
Qed.

Lemma binding_line_parsed (key value arg : string) :
  key <> EmptyString -> all_chars word_char key = true ->
  value <> EmptyString -> all_chars word_char value = true ->
  all_chars text_char arg = true ->
  skip_span WHITESPACE_CHARS arg = arg ->
  strip_line (binding_line key value arg) = binding_line key value arg /\
  split_line (binding_line key value arg) true = mkParsed key value arg /\
  line_names (binding_line key value arg) key true = true.
Proof.
  intros Hk0 Hk Hv0 Hv Ha Hskip.
  assert (Hstrip : strip_line (binding_line key value arg)
                   = binding_line key value arg).
  { apply strip_line_of_text.
    - unfold binding_line. rewrite all_chars_app. cbn [all_chars].
      rewrite all_chars_app. cbn [all_chars].
      rewrite (all_chars_weaken _ _ key word_char_text Hk).
      rewrite (all_chars_weaken _ _ value word_char_text Hv). rewrite Ha.
      reflexivity.
    - apply skip_span_id. right. destruct key as [|c key]; [contradiction|].
      exists c, (key ++ String SPACE (value ++ String SPACE arg))%string.
      split; [reflexivity|]. cbn [all_chars] in Hk.
      apply Bool.andb_true_iff in Hk. apply word_char_not_blank, Hk. }
  assert (Hsplit : split_line (binding_line key value arg) true
                   = mkParsed key value arg).
  { assert (Hblank : forall x, skip_span WHITESPACE_CHARS (String SPACE x)
                                 = skip_span WHITESPACE_CHARS x) by reflexivity.
    assert (Hval : skip_span WHITESPACE_CHARS (value ++ String SPACE arg)
                   = (value ++ String SPACE arg)%string).
    { apply skip_span_id. right. destruct value as [|c value]; [contradiction|].
      exists c, (value ++ String SPACE arg)%string. split; [reflexivity|].
      cbn [all_chars] in Hv. apply Bool.andb_true_iff in Hv.
      apply word_char_not_blank, Hv. }
    unfold split_line, binding_line.
    rewrite (strpbrk_word key _ Hk), Hblank, Hval, (strpbrk_word value _ Hv),
      Hblank, Hskip.
    reflexivity. }
  split; [exact Hstrip|]. split; [exact Hsplit|].
  unfold line_names. cbv zeta. rewrite Hstrip, Hsplit. cbn [pl_name].
  rewrite String.eqb_refl, Bool.andb_true_r. apply Z.ltb_lt.
  unfold slen, binding_line. rewrite string_length_append.
  destruct key as [|c key]; [contradiction|]. simpl String.length. lia.
Qed.

(** X13: what is written is what is looked up.  A line made of a key, a
    blank, a value, a blank and an argument (key and value without blank,
    ['#'], newline or NUL; the argument, which may be empty, without
    ['#'], newline or NUL and not starting with a blank), placed behind
    lines that do not name the key, makes the lookup of the key return
    that value and that argument. *)
Theorem binding_round_trip
        (fs : filesystem) (conf key value arg default_value : string) (n : Z)
        (before : list string) (rest : string) :
  fs conf = Some (file_of_lines before
                  ++ binding_line key value arg ++ String LF rest)%string ->
  Forall (fun b => fits_buffer b /\ line_names b key true = false) before ->
  key <> EmptyString -> all_chars word_char key = true ->
  value <> EmptyString -> all_chars word_char value = true ->
  all_chars text_char arg = true ->
  skip_span WHITESPACE_CHARS arg = arg ->
  (String.length (binding_line key value arg) < Z.to_nat BUFFER_SIZE - 1)%nat ->
  slen value < n -> slen arg < n ->
  read_config_value fs conf key true n default_value = mkLookup true value arg [].
Proof.
  intros Hfs Hbefore Hk0 Hk Hv0 Hv Ha Hskip Hlen Hvn Han.
  destruct (binding_line_parsed key value arg Hk0 Hk Hv0 Hv Ha Hskip)
    as (Hstrip & Hsplit & Hname).
  pose proof (lookup_first_binding fs conf key default_value true n before
                (binding_line key value arg) rest Hfs Hbefore) as H.
  rewrite Hstrip, Hsplit in H. cbn [pl_value pl_argument] in H.
  apply H; try assumption.
  split; [|exact Hlen].
  assert (Hlf : all_chars (fun c => negb (Ascii.eqb c LF))
                          (binding_line key value arg) = true).
  { unfold binding_line. rewrite all_chars_app. cbn [all_chars].
    rewrite all_chars_app. cbn [all_chars].
    rewrite (all_chars_weaken word_char _ key), (all_chars_weaken word_char _ value),
      (all_chars_weaken text_char _ arg); try assumption; try reflexivity;
      intros c Hc; try apply word_char_text in Hc;
      apply text_char_parts in Hc; tauto. }
  clear - Hlf. induction (binding_line key value arg) as [|c s IH];
    [reflexivity|].
  cbn [all_chars contains_char] in *. apply Bool.andb_true_iff in Hlf.
  destruct Hlf as [Hc Hs]. apply Bool.negb_true_iff in Hc.
  rewrite Hc, IH by exact Hs. reflexivity.
Qed.

Lemma binding_round_trip_witness :
  read_config_value
    (single_file "b.conf"
       (file_of_lines ["# power"]
        ++ binding_line "HOLD_3S" "/sbin/poweroff" "-f now"
        ++ String LF "UP /bin/true")%string)
    "b.conf" "HOLD_3S" true MAX_PATH_LENGTH "#"
  = mkLookup true "/sbin/poweroff" "-f now" [].
Proof.
  apply (binding_round_trip
           (single_file "b.conf"
              (file_of_lines ["# power"]
               ++ binding_line "HOLD_3S" "/sbin/poweroff" "-f now"
               ++ String LF "UP /bin/true")%string)
           "b.conf" "HOLD_3S" "/sbin/poweroff" "-f now" "#" MAX_PATH_LENGTH
           ["# power"] "UP /bin/true").
  - reflexivity.
  - apply Forall_cons; [| apply Forall_nil].
    split; [apply short_line_fits_buffer; [reflexivity | simpl; lia] | reflexivity].
  - discriminate.
  - reflexivity.
  - discriminate.
  - reflexivity.
  - reflexivity.
  - reflexivity.
  - destruct (short_line_fits_buffer
                (binding_line "HOLD_3S" "/sbin/poweroff" "-f now"))
      as [_ Hlen]; [reflexivity | simpl; lia | exact Hlen].
  - vm_compute. reflexivity.
  - vm_compute. reflexivity.
Defined.

Lemma strpbrk_prefix_clean (set s pre suf : string) :
  strpbrk s set = Some (pre, suf) ->
  all_chars (fun c => negb (mem_char c set)) pre = true.
Proof.
  revert pre suf. induction s as [|c s IH]; cbn [strpbrk]; intros pre suf H;
    [discriminate H|].
  destruct (mem_char c set) eqn:E.
  - inversion H; subst. reflexivity.
  - destruct (strpbrk s set) as [[p q]|]; [|discriminate H].
    inversion H; subst. cbn [all_chars]. rewrite E, (IH p suf eq_refl). reflexivity.
Qed.

Lemma strpbrk_none_clean (set s : string) :
  strpbrk s set = None ->
  all_chars (fun c => negb (mem_char c set)) s = true.
Proof.
  induction s as [|c s IH]; cbn [strpbrk all_chars]; intros H; [reflexivity|].
  destruct (mem_char c set) eqn:E; [discriminate H|].
  destruct (strpbrk s set) as [[p q]|]; [discriminate H|].
  rewrite IH by reflexivity. reflexivity.
Qed.

Lemma skip_span_idempotent (set s : string) :
  skip_span set (skip_span set s) = skip_span set s.
Proof.
  induction s as [|c s IH]; cbn [skip_span]; [reflexivity|].
  destruct (mem_char c set) eqn:E; [exact IH|].
  cbn [skip_span]. rewrite E. reflexivity.
Qed.

Lemma split_line_words (p : string) :
  all_chars not_blank (pl_value (split_line p true)) = true /\
  skip_span WHITESPACE_CHARS (pl_argument (split_line p true))
  = pl_argument (split_line p true).
Proof.
  unfold split_line, not_blank.
  destruct (strpbrk p WHITESPACE_CHARS) as [[name t]|]; [|split; reflexivity].
  destruct (strpbrk (skip_span WHITESPACE_CHARS t) WHITESPACE_CHARS)
    as [[value a1]|] eqn:E; cbn [pl_value pl_argument].
  - split; [eapply strpbrk_prefix_clean; exact E | apply skip_span_idempotent].
  - split; [apply strpbrk_none_clean; exact E | reflexivity].
Qed.

Lemma scan_config_result_words (key : string) (n : Z) (fuel : nat) :
  forall f currentLine value argument,
    fst (scan_config fuel f key true n currentLine) = Some (value, argument) ->
    all_chars not_blank value = true /\
    skip_span WHITESPACE_CHARS argument = argument.
Proof.
  induction fuel as [|fuel IH]; intros f currentLine value argument H;
    cbn [scan_config] in H; [discriminate H|].
  destruct (read_line f (Z.to_nat BUFFER_SIZE)) as [[buffer rest]|];
    [|discriminate H].
  pose proof (classify_line_accepts buffer key true n) as Hc. cbv zeta in Hc.
  destruct (classify_line buffer key true n);
    try (destruct (scan_config fuel rest key true n (currentLine + 1))
           as [r w] eqn:E;
         apply (IH rest (currentLine + 1)); rewrite E; exact H).
  cbn [fst] in H. inversion H; subst.
  destruct Hc as (_ & -> & ->). apply split_line_words.
Qed.

(** X14: a value looked up together with its argument is one word: it
    holds no space and no tab, and the argument does not start with one.
    A script whose path holds a blank cannot be bound. *)
Theorem found_value_is_one_word
        (fs : filesystem) (conf key default_value : string) (n : Z) :
  let r := read_config_value fs conf key true n default_value in
  lk_found r = true ->
  all_chars not_blank (lk_dst r) = true /\
  skip_span WHITESPACE_CHARS (lk_args r) = lk_args r.
Proof.
  cbv zeta. unfold read_config_value.
  destruct (fs conf) as [f|]; [|discriminate].
  pose proof (scan_config_result_words key n (S (String.length f)) f 0) as H.
  destruct (scan_config (S (String.length f)) f key true n 0)
    as [[[value argument]|] w]; cbn [lk_found lk_dst lk_args fst] in *;
    [|discriminate].
  intros _. apply H. reflexivity.
Qed.

Lemma found_value_is_one_word_witness :
  let r := read_config_value (single_file "b.conf" "UP /opt/my tool/run.sh  quick")
                             "b.conf" "UP" true MAX_PATH_LENGTH "#" in
  lk_dst r = "/opt/my" /\
  all_chars not_blank (lk_dst r) = true /\
  skip_span WHITESPACE_CHARS (lk_args r) = lk_args r.
Proof.
  split; [reflexivity|].
  apply (found_value_is_one_word
           (single_file "b.conf" "UP /opt/my tool/run.sh  quick")
           "b.conf" "UP" "#" MAX_PATH_LENGTH).
  reflexivity.
Defined.

(** ** Action resolver *)

Lemma lookup_no_fitting_binding
      (fs : filesystem) (conf key default_value : string) (want_args : bool) (n : Z) :
  config_has_fitting_binding fs conf key want_args n = false ->
  exists w, read_config_value fs conf key want_args n default_value
            = mkLookup false default_value EmptyString w.
Proof.
  unfold config_has_fitting_binding, read_config_value. intros H.
  destruct (fs conf) as [f|]; [|exists []; reflexivity].
  pose proof (scan_config_finds_fitting key want_args n (S (String.length f)) f 0)
    as Hscan.
  destruct (scan_config (S (String.length f)) f key want_args n 0)
    as [[[value argument]|] w]; cbn [fst] in Hscan.
  - destruct Hscan as [Hfit _]. congruence.
  - exists w. reflexivity.
Qed.

Lemma action_name_nonempty (g : globals) (action : action_e) (c h : Z) :
  action <> A_COUNT -> (slen (get_action_name g action c h) =? 0) = false.
Proof.
  intros Ha. apply Z.eqb_neq. unfold slen.
  destruct action; try contradiction; cbn [get_action_name]; cbv zeta;
    repeat match goal with
           | |- context [if ?b then _ else _] => destruct b
           end;
    unfold DOWN_VALUE_NAME, UP_VALUE_NAME, CLICK_NAME_PREFIX,
      CLICK_OTHER_VALUE_NAME, HOLD_NAME_PREFIX, HOLD_OTHER_VALUE_NAME;
    cbn [append String.length]; lia.
Qed.

Lemma get_action_script_unbound
      (fs : filesystem) (g : globals) (action : action_e) (name : string) (n : Z) :
  config_has_fitting_binding fs (g_config_path g) name true n = false ->
  (forall other, fallback_name action = Some other ->
                 config_has_fitting_binding fs (g_config_path g) other true n = false) ->
  as_buffer (get_action_script fs g action name n) = EmptyString.
Proof.
  intros Hown Hother. unfold get_action_script.
  destruct (lookup_no_fitting_binding fs (g_config_path g) name "#" true n Hown)
    as [w ->].
  cbn [lk_dst lk_args lk_warnings starts_with].
  change (Ascii.eqb "#" HASH) with true. cbv iota.
  destruct action; cbn [fallback_name] in Hother;
    try reflexivity.
  - destruct (lookup_no_fitting_binding fs (g_config_path g) CLICK_OTHER_VALUE_NAME
                "#" true n (Hother _ eq_refl)) as [w' ->]. reflexivity.
  - destruct (lookup_no_fitting_binding fs (g_config_path g) HOLD_OTHER_VALUE_NAME
                "#" true n (Hother _ eq_refl)) as [w' ->]. reflexivity.
Qed.

(** X15: an event without a usable binding runs nothing.  If neither the
    action's own name nor, for CLICK and HOLD, the [_OTHER] name is bound
    to a value and argument that fit, [execute_action] ends without a
    command; DOWN and UP have no fallback. *)
Theorem unbound_event_runs_nothing
        (dirname_buffer : string -> string) (fs : filesystem) (g : globals)
        (action : action_e) (click_count hold_time : Z) :
  action <> A_COUNT ->
  config_has_fitting_binding fs (g_config_path g)
    (get_action_name g action click_count hold_time) true MAX_PATH_LENGTH = false ->
  (forall other, fallback_name action = Some other ->
     config_has_fitting_binding fs (g_config_path g) other true MAX_PATH_LENGTH
     = false) ->
  execute_action dirname_buffer fs g action click_count hold_time = ExecNoCommand.
Proof.
  intros Ha Hown Hother. unfold execute_action, get_action_script_path.
  rewrite (action_name_nonempty g action click_count hold_time Ha).
  rewrite (get_action_script_unbound fs g action _ MAX_PATH_LENGTH Hown Hother).
  destruct action; try contradiction; reflexivity.
Qed.

Lemma unbound_event_runs_nothing_witness :
  execute_action dirname_plain
    (single_file "/etc/inzown/button.conf" "CLICK_OTHER /bin/many")
    initial_globals A_DOWN 0 0
  = ExecNoCommand.
Proof.
  apply (unbound_event_runs_nothing dirname_plain
           (single_file "/etc/inzown/button.conf" "CLICK_OTHER /bin/many")
           initial_globals A_DOWN 0 0).
  - discriminate.
  - reflexivity.
  - intros other H. discriminate H.
Defined.

(** X16: a CLICK or HOLD whose own name has no usable binding is
    resolved as the [_OTHER] name is: [get_action_script] returns the
    script and the argument that the lookup of [CLICK_OTHER] (for CLICK)
    or [HOLD_OTHER] (for HOLD) returns. *)
Theorem fallback_resolves_as_other
        (fs : filesystem) (g : globals) (action : action_e)
        (name other : string) (n : Z) :
  fallback_name action = Some other ->
  config_has_fitting_binding fs (g_config_path g) name true n = false ->
  as_buffer (get_action_script fs g action name n)
  = as_buffer (get_action_script fs g action other n) /\
  as_args (get_action_script fs g action name n)
  = as_args (get_action_script fs g action other n).
Proof.
  intros Hfb Hown. unfold get_action_script.
  destruct (lookup_no_fitting_binding fs (g_config_path g) name "#" true n Hown)
    as [w ->].
  cbn [lk_dst lk_args lk_warnings starts_with].
  change (Ascii.eqb "#" HASH) with true. cbv iota.
  destruct action; cbn [fallback_name] in Hfb; try discriminate Hfb;
    inversion Hfb; subst other;
    match goal with
    | |- context [read_config_value ?a ?b ?c ?d ?e ?f] =>
        destruct (read_config_value a b c d e f) as [fd dst args ws]
    end;
    cbn [lk_dst lk_args lk_warnings];
    destruct (starts_with HASH dst) eqn:E; rewrite ?E; cbn [as_buffer as_args];
    split; reflexivity.
Qed.

Lemma fallback_resolves_as_other_witness :
  let fs := single_file "/etc/inzown/button.conf"
                        (file_of_lines ["CLICK_1 one.sh"; "CLICK_OTHER many.sh loud"]) in
  as_buffer (get_action_script fs initial_globals A_CLICK "CLICK_7" MAX_PATH_LENGTH)
  = "many.sh" /\
  as_args (get_action_script fs initial_globals A_CLICK "CLICK_7" MAX_PATH_LENGTH)
  = "loud".
Proof.
  cbv zeta.
  destruct (fallback_resolves_as_other
              (single_file "/etc/inzown/button.conf"
                 (file_of_lines ["CLICK_1 one.sh"; "CLICK_OTHER many.sh loud"]))
              initial_globals A_CLICK "CLICK_7" CLICK_OTHER_VALUE_NAME
              MAX_PATH_LENGTH) as [Hb Ha].
  - reflexivity.
  - reflexivity.
  - rewrite Hb, Ha. split; reflexivity.
Defined.

Lemma take_all (k : nat) :
  forall s, (String.length s <= k)%nat -> take k s = s.
Proof.
  induction k as [|k IH]; intros s H.
  - destruct s; [reflexivity | simpl in H; lia].
  - destruct s as [|c s]; [reflexivity|]. cbn [take]. rewrite IH; [reflexivity|].
    simpl in H. lia.
Qed.

Lemma take_length (k : nat) :
  forall s, (String.length (take k s) <= k)%nat.
Proof.
  induction k as [|k IH]; intros s.
  - destruct s; simpl; lia.
  - destruct s as [|c s]; [simpl; lia|]. cbn [take String.length].
    specialize (IH s). lia.
Qed.

Lemma string_append_nil (s : string) : (s ++ EmptyString)%string = s.
Proof. induction s as [|c s IH]; simpl; [reflexivity | rewrite IH; reflexivity]. Qed.

Lemma lookup_found_fits
      (fs : filesystem) (conf key default_value value argument : string)
      (want_args : bool) (n : Z) (w : list warning) :
  read_config_value fs conf key want_args n default_value
  = mkLookup true value argument w ->
  slen value < n /\ slen argument < n.
Proof.
  unfold read_config_value. destruct (fs conf) as [f|]; [|discriminate].
  pose proof (scan_config_result_fits key want_args n (S (String.length f)) f 0) as H.
  destruct (scan_config (S (String.length f)) f key want_args n 0)
    as [[[v a]|] w']; [|discriminate].
  intros E. inversion E; subst. apply H. reflexivity.
Qed.

Lemma get_action_script_found
      (fs : filesystem) (g : globals) (action : action_e) (name : string) (n : Z)
      (value argument : string) (w : list warning) :
  read_config_value fs (g_config_path g) name true n "#"
  = mkLookup true value argument w ->
  get_action_script fs g action name n = mkActionScript value argument w.
Proof.
  intros Hlook. unfold get_action_script.
  assert (Hnohash : starts_with HASH value = false).
  { pose proof (scan_config_finds_fitting name true n) as Hscan.
    unfold read_config_value in Hlook.
    destruct (fs (g_config_path g)) as [f|]; [|discriminate Hlook].
    specialize (Hscan (S (String.length f)) f 0).
    destruct (scan_config (S (String.length f)) f name true n 0)
      as [[[v a]|] w']; [|discriminate Hlook].
    inversion Hlook; subst. cbn [fst] in Hscan. destruct Hscan as [_ Hh].
    destruct (starts_with HASH value) eqn:E; [|reflexivity].
    apply starts_with_contains in E. congruence. }
  rewrite Hlook. cbn [lk_dst lk_args lk_warnings]. rewrite Hnohash.
  cbv iota beta. rewrite Hnohash. reflexivity.
Qed.

(** X17: for DOWN and UP the command is the bound value alone.  When the
    action's name is bound to a value that starts with a slash, that
    value is run as it is: nothing is appended, and an argument on the
    line is dropped. *)
Theorem down_up_run_value_alone
        (dirname_buffer : string -> string) (fs : filesystem) (g : globals)
        (action : action_e) (click_count hold_time : Z)
        (value argument : string) (w : list warning) :
  action = A_DOWN \/ action = A_UP ->
  read_config_value fs (g_config_path g)
    (get_action_name g action click_count hold_time) true MAX_PATH_LENGTH "#"
  = mkLookup true value argument w ->
  starts_with SLASH value = true ->
  execute_action dirname_buffer fs g action click_count hold_time = ExecSystem value.
Proof.
  intros Ha Hlook Hslash.
  destruct (lookup_found_fits _ _ _ _ _ _ _ _ _ Hlook) as [Hv _].
  assert (Hne : action <> A_COUNT) by (destruct Ha; subst; discriminate).
  assert (Hpos : 0 < slen value).
  { destruct value; [discriminate Hslash|]. unfold slen. simpl String.length. lia. }
  unfold execute_action, get_action_script_path.
  rewrite (action_name_nonempty g action click_count hold_time Hne).
  rewrite (get_action_script_found fs g action _ MAX_PATH_LENGTH _ _ _ Hlook).
  cbn [as_buffer as_args as_warnings].
  replace (slen value =? 0) with false by (symmetry; apply Z.eqb_neq; lia).
  rewrite Hslash.
  rewrite (take_all _ value) by (unfold MAX_PATH_LENGTH, slen in *; lia).
  destruct Ha; subst action; cbn [sp_return sp_script sp_args];
    (replace (slen value <? 0) with false by (symmetry; apply Z.ltb_ge; lia));
    (replace (slen value =? 0) with false by (symmetry; apply Z.eqb_neq; lia));
    change (slen EmptyString) with 0;
    (replace (MAX_PATH_LENGTH + 64 - slen value + 1 <=? 0) with false
      by (symmetry; apply Z.leb_gt; unfold MAX_PATH_LENGTH in *; lia));
    rewrite string_append_nil; reflexivity.
Qed.

Lemma down_up_run_value_alone_witness :
  execute_action dirname_plain
    (single_file "/etc/inzown/button.conf" "DOWN /bin/echo pressed")
    initial_globals A_DOWN 0 0
  = ExecSystem "/bin/echo".
Proof.
  apply (down_up_run_value_alone dirname_plain
           (single_file "/etc/inzown/button.conf" "DOWN /bin/echo pressed")
           initial_globals A_DOWN 0 0 "/bin/echo" "pressed" []).
  - left. reflexivity.
  - reflexivity.
  - reflexivity.
Defined.

Lemma script_path_return
      (dirname_buffer : string -> string) (fs : filesystem) (g : globals)
      (action : action_e) (click_count hold_time n : Z) :
  let r := get_action_script_path dirname_buffer fs g action click_count hold_time n in
  sp_return r <= 0 \/ sp_return r = slen (sp_script r).
Proof.
  cbv zeta. unfold get_action_script_path, EINVAL.
  destruct action;
    repeat match goal with
           | |- context [if ?b then _ else _] => destruct b
           end;
    cbn [sp_return sp_script]; auto; left; lia.
Qed.

(** X18: a command handed to the shell never has more than
    [MAX_PATH_LENGTH + 64] = 4160 bytes, the size of the array it is
    assembled in. *)
Theorem command_length_bound
        (dirname_buffer : string -> string) (fs : filesystem) (g : globals)
        (action : action_e) (click_count hold_time : Z) (cmd : string) :
  execute_action dirname_buffer fs g action click_count hold_time = ExecSystem cmd ->
  slen cmd <= MAX_PATH_LENGTH + 64.
Proof.
  unfold execute_action.
  pose proof (script_path_return dirname_buffer fs g action click_count hold_time
                (MAX_PATH_LENGTH + 64)) as Hr.
  cbv zeta in Hr.
  destruct (get_action_script_path dirname_buffer fs g action click_count hold_time
              (MAX_PATH_LENGTH + 64)) as [ret name script args w].
  cbn [sp_return sp_script sp_args] in *.
  destruct (ret <? 0) eqn:E1; [discriminate|].
  destruct (ret =? 0) eqn:E2; [discriminate|].
  apply Z.ltb_ge in E1. apply Z.eqb_neq in E2.
  destruct Hr as [Hr | Hr]; [lia|].
  match goal with
  | |- context [slen ?a] =>
      match a with
      | match action with _ => _ end => remember a as appended
      end
  end.
  destruct (MAX_PATH_LENGTH + 64 - ret + 1 <=? slen appended) eqn:E3; [discriminate|].
  apply Z.leb_gt in E3. intros H. inversion H; subst cmd.
  unfold slen in *. rewrite string_length_append. lia.
Qed.

Lemma command_length_bound_witness :
  slen "/bin/echo one" <= MAX_PATH_LENGTH + 64.
Proof.
  apply (command_length_bound dirname_plain
           (single_file "/etc/inzown/button.conf" "CLICK_1 /bin/echo one")
           initial_globals A_CLICK 1 0 "/bin/echo one").
  reflexivity.
Defined.

(** The bound is reached: with a value of 100 bytes and an argument of
    4059 bytes the command has 4160 bytes, as many as the array [cmd]
    has, and none is left for its terminator. *)
Example command_fills_cmd_array :
  match execute_action dirname_plain
          (single_file "/etc/inzown/button.conf"
             ("CLICK_1 /" ++ repeat_char "x" 99 ++ " " ++ repeat_char "a" 4059)%string)
          initial_globals A_CLICK 1 0 with
  | ExecSystem cmd => slen cmd = MAX_PATH_LENGTH + 64
  | _ => False
  end.
Proof. vm_compute. reflexivity. Qed.

(** ** Gesture loop *)

Lemma count_effects_app (p : effect -> bool) (a b : list effect) :
  count_effects p (a ++ b) = (count_effects p a + count_effects p b)%nat.
Proof. unfold count_effects. rewrite filter_app, length_app. reflexivity. Qed.

Lemma iteration_down_count (g : globals) (s : gesture) (w : wakeup) :
  snd (iteration g s w) = None ->
  count_effects is_down_action (snd (fst (iteration g s w)))
  = if is_down_edge w then 1%nat else 0%nat.
Proof.
  unfold iteration, is_down_edge, handle_button, handle_timer.
  repeat break_match; invert_pairs;
    repeat match goal with
           | H : negb _ = true |- _ => apply Bool.negb_true_iff in H
           | H : negb _ = false |- _ => apply Bool.negb_false_iff in H
           end;
    repeat match goal with
           | H : br_rewound _ = _ |- _ => rewrite H in *; clear H
           | H : (fst (strtoul _) =? 0) = _ |- _ => rewrite H in *; clear H
           | H : (br_read _ =? 0) = _ |- _ => rewrite H in *; clear H
           end;
    cbn [fst snd negb andb] in *;
    intros H; try discriminate; try reflexivity;
    rewrite ?count_effects_app; reflexivity.
Qed.

(** X20: one DOWN action per pressed edge.  In a run that does not leave
    the loop, the number of DOWN actions is the number of wakeups in which
    the button descriptor was ready with a readable, nonzero level. *)
Theorem one_down_per_pressed_edge (g : globals) (ws : list wakeup) :
  snd (run_loop g gesture_start ws) = None ->
  count_effects is_down_action (trace g ws) = List.length (filter is_down_edge ws).
Proof.
  unfold trace, turns. generalize gesture_start.
  induction ws as [|w ws IH]; intros s H; [reflexivity|].
  cbn [run_loop filter] in *.
  pose proof (iteration_down_count g s w) as Hw.
  destruct (iteration g s w) as [[s' effs] [e|]]; [discriminate H|].
  specialize (IH s'). destruct (run_loop g s' ws) as [[s'' rest] e].
  cbn [fst snd] in *. cbn [List.concat].
  rewrite count_effects_app, (IH H), (Hw eq_refl).
  destruct (is_down_edge w); reflexivity.
Qed.

Lemma one_down_per_pressed_edge_witness :
  count_effects is_down_action
    (trace initial_globals
           [pressed_edge 1000; released_edge 1050; pressed_edge 1100;
            released_edge 1150; timer_fired]) = 2%nat.
Proof.
  apply (one_down_per_pressed_edge initial_globals
           [pressed_edge 1000; released_edge 1050; pressed_edge 1100;
            released_edge 1150; timer_fired]).
  reflexivity.
Defined.

Lemma iteration_up_count (g : globals) (s : gesture) (w : wakeup) (tr : list effect) :
  (count_effects is_up_action tr + (if button_down s then 1 else 0)
   <= count_effects is_down_action tr)%nat ->
  (count_effects is_up_action (tr ++ snd (fst (iteration g s w)))
   + (if button_down (fst (fst (iteration g s w))) then 1 else 0)
   <= count_effects is_down_action (tr ++ snd (fst (iteration g s w))))%nat.
Proof.
  rewrite !count_effects_app.
  unfold iteration, handle_button, handle_timer.
  repeat break_match; invert_pairs; cbn [fst snd button_down] in *;
    try congruence;
    rewrite ?count_effects_app;
    unfold count_effects, onDown, onUp, onHold, onTimesClicked;
    cbn [filter is_up_action is_down_action List.length app];
    try discriminate; lia.
Qed.

(** X21: no UP action without a press before it.  At every point of a
    run the UP actions are at most as many as the DOWN actions, and
    fewer while the button is held down. *)
Theorem up_follows_down (g : globals) (ws : list wakeup) :
  (count_effects is_up_action (trace g ws)
   <= count_effects is_down_action (trace g ws))%nat /\
  (button_down (final_state g ws) = true ->
   (count_effects is_up_action (trace g ws)
    < count_effects is_down_action (trace g ws))%nat).
Proof.
  destruct (run_loop_invariant_from g
              (fun _ s tr =>
                 (count_effects is_up_action tr + (if button_down s then 1 else 0)
                  <= count_effects is_down_action tr)%nat)) with
    (ws := ws) (k := O) (s := gesture_start) (tr := @nil effect)
    as [k' [_ HP]].
  - intros _ s tr w H. apply iteration_up_count, H.
  - cbn. lia.
  - cbn [app] in HP. fold (final_state g ws) in HP. fold (turns g ws) in HP.
    fold (trace g ws) in HP. split.
    + destruct (button_down (final_state g ws)); lia.
    + intros Hd. rewrite Hd in HP. lia.
Qed.

Lemma down_then_arm_app (a b : list effect) :
  down_then_arm a -> down_then_arm b -> down_then_arm (a ++ b).
Proof.
  intros Ha Hb. induction Ha as [| l Hl IH | e l He Ht Hl IH]; cbn [app].
  - exact Hb.
  - apply dta_pair, IH.
  - apply dta_other; assumption.
Qed.

Lemma down_then_arm_concat (ls : list (list effect)) :
  Forall down_then_arm ls -> down_then_arm (List.concat ls).
Proof.
  induction 1 as [| l ls Hl Hls IH]; cbn [concat].
  - constructor.
  - apply down_then_arm_app; assumption.
Qed.

Lemma down_then_arm_spec (l : list effect) :
  down_then_arm l -> down_arms_timer l.
Proof.
  unfold down_arms_timer.
  induction 1 as [| l Hl [IHd IHt] | e l He Ht Hl [IHd IHt]]; split.
  - intros pre c h post Heq. destruct pre; discriminate Heq.
  - intros pre its post Heq. destruct pre; discriminate Heq.
  - intros pre c h post Heq. destruct pre as [| x [| y pre]]; cbn [app] in Heq.
    + inversion Heq; subst. exists l. reflexivity.
    + inversion Heq.
    + inversion Heq; subst. apply (IHd pre c h post eq_refl).
  - intros pre its post Heq. destruct pre as [| x [| y pre]]; cbn [app] in Heq.
    + inversion Heq.
    + inversion Heq; subst. split; [reflexivity|]. exists []. reflexivity.
    + inversion Heq; subst.
      destruct (IHt pre its post eq_refl) as [Hits [pre' ->]].
      split; [exact Hits|]. exists (onDown :: TimerSet click_timer :: pre').
      reflexivity.
  - intros pre c h post Heq. destruct pre as [| x pre]; cbn [app] in Heq.
    + inversion Heq; subst. discriminate He.
    + inversion Heq; subst. apply (IHd pre c h post eq_refl).
  - intros pre its post Heq. destruct pre as [| x pre]; cbn [app] in Heq.
    + inversion Heq; subst. exfalso. apply (Ht its). reflexivity.
    + inversion Heq; subst.
      destruct (IHt pre its post eq_refl) as [Hits [pre' ->]].
      split; [exact Hits|]. exists (x :: pre'). reflexivity.
Qed.

Ltac solve_down_then_arm :=
  repeat first
    [ apply dta_nil
    | apply dta_pair
    | apply dta_other;
      [ reflexivity
      | unfold onUp, onHold, onTimesClicked; intros ?; discriminate
      | ] ].

Lemma iteration_down_then_arm (g : globals) (s : gesture) (w : wakeup) :
  down_then_arm (snd (fst (iteration g s w))).
Proof.
  unfold iteration, handle_button, handle_timer.
  repeat break_match; invert_pairs; cbn [fst snd app]; solve_down_then_arm.
Qed.

Lemma run_loop_down_then_arm (g : globals) (ws : list wakeup) :
  forall s, Forall down_then_arm (snd (fst (run_loop g s ws))).
Proof.
  induction ws as [|w ws IH]; intros s; cbn [run_loop].
  - constructor.
  - pose proof (iteration_down_then_arm g s w) as Hw.
    destruct (iteration g s w) as [[s' effs] [e|]]; cbn [fst snd] in *.
    + constructor; [exact Hw | constructor].
    + specialize (IH s'). destruct (run_loop g s' ws) as [[s'' rest] e].
      cbn [fst snd] in *. constructor; assumption.
Qed.

(** X22: every DOWN re-arms the click timer.  In every run each DOWN
    action is directly followed by [timerfd_settime] with a one-shot
    value of 400 ms, and the timer is armed at no other place. *)
Theorem down_rearms_timer (g : globals) (ws : list wakeup) :
  down_arms_timer (trace g ws) /\
  click_timer = mkItimerspec 0 0 0 (CLICK_TIMEOUT_MS * 1000000).
Proof.
  split; [|reflexivity].
  apply down_then_arm_spec, down_then_arm_concat, run_loop_down_then_arm.
Qed.

Lemma iteration_within_limit (g : globals) (s : gesture) (w : wakeup)
      (tr : list effect) :
  0 < g_click_count_limit g -> g_click_count_limit g <= UINT_MAX ->
  (0 <= num_pressed s <= g_click_count_limit g /\
   (button_down s = true -> 1 <= num_pressed s) /\
   Forall (count_within_limit g) tr) ->
  (0 <= num_pressed (fst (fst (iteration g s w))) <= g_click_count_limit g /\
   (button_down (fst (fst (iteration g s w))) = true ->
    1 <= num_pressed (fst (fst (iteration g s w)))) /\
   Forall (count_within_limit g) (tr ++ snd (fst (iteration g s w)))).
Proof.
  unfold UINT_MAX. intros Hlim Hmax (Hn & Hb & Htr).
  rewrite Forall_app.
  unfold iteration, handle_button, handle_timer.
  repeat break_match; invert_pairs; cbn [fst snd num_pressed button_down app];
    rewrite ?Bool.orb_true_iff, ?Bool.orb_false_iff, ?Z.eqb_eq, ?Z.eqb_neq,
            ?Z.ltb_lt, ?Z.ltb_ge, ?Bool.negb_true_iff, ?Bool.negb_false_iff in *;
    try (rewrite u32_succ by (unfold UINT_MAX; lia));
    unfold onDown, onUp, onHold, onTimesClicked;
    repeat split; intros;
    repeat (apply Forall_cons || apply Forall_nil);
    cbn [count_within_limit];
    try exact Htr; try exact I; try discriminate;
    try (pose proof (u32_range (u64 (br_timestamp b - pressed_at s))));
    try (split; [split|]); try assumption; try reflexivity;
    try lia; try congruence; intuition lia.
Qed.

(** X23: the press count that a CLICK or a HOLD carries stays within the
    click limit.  With a limit above 0, every CLICK action of a run has a
    count from 0 to the limit and hold time 0, and every HOLD action has a
    count from 1 to the limit. *)
Theorem reported_counts_within_limit (g : globals) (ws : list wakeup) :
  0 < g_click_count_limit g -> g_click_count_limit g <= UINT_MAX ->
  Forall (count_within_limit g) (trace g ws).
Proof.
  intros Hlim Hmax.
  destruct (run_loop_invariant_from g
              (fun _ s tr =>
                 0 <= num_pressed s <= g_click_count_limit g /\
                 (button_down s = true -> 1 <= num_pressed s) /\
                 Forall (count_within_limit g) tr)) with
    (ws := ws) (k := O) (s := gesture_start) (tr := @nil effect)
    as [k' [_ HP]].
  - intros _ s tr w H. apply iteration_within_limit; assumption.
  - cbn. repeat split; try lia; try discriminate. constructor.
  - apply HP.
Qed.

Lemma reported_counts_within_limit_witness :
  Forall (count_within_limit (set_click_count_limit initial_globals 2))
         (trace (set_click_count_limit initial_globals 2)
                [pressed_edge 1000; released_edge 1050; pressed_edge 1100;
                 released_edge 1150; pressed_edge 1200; released_edge 1900;
                 timer_fired]).
Proof.
  apply (reported_counts_within_limit (set_click_count_limit initial_globals 2));
    unfold UINT_MAX; simpl; lia.
Defined.

(** ** Start-up *)

Lemma parse_uint_range (v : string) (x : Z) :
  parse_uint v = (true, x) -> in_u32 x.
Proof.
  unfold parse_uint. destruct (strtoul v) as [y [[|c r]|]]; intros H;
    inversion H; subst. apply u32_range.
Qed.

Ltac option_step_same :=
  unfold option_step;
  cbn [ar_globals conf_path_specified click_count_limit_specified
       set_full_time set_offset_time set_debug set_config_path
       set_click_count_limit set_button_pin set_pin_activation
       g_config_path g_click_count_limit];
  split; [| split]; intros; auto; try (exfalso; congruence); try tauto.

Lemma parse_args_step (a : string) (rest : list string) (st : arg_state) :
  (exists c, parse_args (a :: rest) st = inl c /\ (c = 0 \/ c = 1)) \/
  (exists rest' st1,
      parse_args (a :: rest) st = parse_args rest' st1 /\
      (rest' = rest \/ exists v, rest = v :: rest') /\
      option_step a st st1).
Proof.
  cbn [parse_args].
  destruct (String.eqb a "--help"); [left; eexists; eauto|].
  destruct (String.eqb a "--version"); [left; eexists; eauto|].
  destruct (String.eqb a "--full-time").
  { right. do 2 eexists. split; [reflexivity|]. split; [auto|]. option_step_same. }
  destruct (String.eqb a "--offset-time").
  { right. do 2 eexists. split; [reflexivity|]. split; [auto|]. option_step_same. }
  destruct (String.eqb a "--help-time"); [left; eexists; eauto|].
  destruct (String.eqb a "--debug").
  { destruct rest as [|v rest']; [left; eexists; eauto|].
    destruct (parse_uint v) as [[|] x].
    - right. do 2 eexists. split; [reflexivity|]. split; [right; eauto|].
      option_step_same.
    - right. exists (v :: rest'), st. split; [reflexivity|]. split; [auto|].
      option_step_same. }
  destruct (String.eqb a "-q").
  { right. do 2 eexists. split; [reflexivity|]. split; [auto|]. option_step_same. }
  destruct (String.eqb a "--conf") eqn:Econf.
  { apply String.eqb_eq in Econf.
    destruct rest as [|v rest']; [left; eexists; eauto|].
    right. do 2 eexists. split; [reflexivity|]. split; [right; eauto|].
    option_step_same. }
  destruct (String.eqb a "--click-count-limit" || String.eqb a "-n")%bool eqn:Elim.
  { apply Bool.orb_true_iff in Elim. rewrite !String.eqb_eq in Elim.
    destruct rest as [|v rest']; [left; eexists; eauto|].
    destruct (parse_uint v) as [[|] x] eqn:Ev; [|left; eexists; eauto].
    right. do 2 eexists. split; [reflexivity|]. split; [right; eauto|].
    option_step_same. apply (parse_uint_range v x Ev). }
  destruct (String.eqb a "--gpio").
  { destruct rest as [|v rest']; [left; eexists; eauto|].
    destruct (parse_uint v) as [[|] x]; [|left; eexists; eauto].
    right. do 2 eexists. split; [reflexivity|]. split; [right; eauto|].
    option_step_same. }
  destruct (String.eqb a "--active-low").
  { right. do 2 eexists. split; [reflexivity|]. split; [auto|]. option_step_same. }
  destruct (String.eqb a "--active-high").
  { right. do 2 eexists. split; [reflexivity|]. split; [auto|]. option_step_same. }
  left. eexists; eauto.
Qed.

Lemma parse_args_ok (n : nat) :
  forall args st,
    (List.length args <= n)%nat ->
    match parse_args args st with
    | inl c => c = 0 \/ c = 1
    | inr st' =>
        (~ In "--conf" args ->
         conf_path_specified st' = conf_path_specified st /\
         g_config_path (ar_globals st') = g_config_path (ar_globals st)) /\
        (~ In "-n" args -> ~ In "--click-count-limit" args ->
         click_count_limit_specified st' = click_count_limit_specified st /\
         g_click_count_limit (ar_globals st')
         = g_click_count_limit (ar_globals st)) /\
        (in_u32 (g_click_count_limit (ar_globals st)) ->
         in_u32 (g_click_count_limit (ar_globals st')))
    end.
Proof.
  induction n as [|n IH]; intros args st Hlen.
  - destruct args; [|simpl in Hlen; lia]. cbn [parse_args]. auto.
  - destruct args as [|a rest]; [cbn [parse_args]; auto|].
    destruct (parse_args_step a rest st)
      as [[c [-> Hc]] | (rest' & st1 & -> & Hrest & Hconf & Hlim & Hrange)];
      [exact Hc|].
    assert (Hlen' : (List.length rest' <= n)%nat).
    { destruct Hrest as [-> | [v ->]]; cbn [List.length] in *; lia. }
    assert (Hin : forall x, In x rest' -> In x (a :: rest)).
    { intros x Hx. destruct Hrest as [-> | [v ->]]; cbn [In]; auto. }
    specialize (IH rest' st1 Hlen').
    destruct (parse_args rest' st1) as [c | st']; [exact IH|].
    destruct IH as (IHconf & IHlim & IHrange). split; [|split].
    + intros Hnc.
      assert (Ha : a <> "--conf") by (intros ->; apply Hnc; left; reflexivity).
      assert (Hr : ~ In "--conf" rest') by (intros Hx; apply Hnc, Hin, Hx).
      destruct (IHconf Hr) as [E1 E2]. destruct (Hconf Ha) as [E3 E4].
      split; congruence.
    + intros Hn Hl.
      assert (Ha : a <> "-n") by (intros ->; apply Hn; left; reflexivity).
      assert (Hb : a <> "--click-count-limit")
        by (intros ->; apply Hl; left; reflexivity).
      assert (Hr : ~ In "-n" rest') by (intros Hx; apply Hn, Hin, Hx).
      assert (Hr' : ~ In "--click-count-limit" rest')
        by (intros Hx; apply Hl, Hin, Hx).
      destruct (IHlim Hr Hr') as [E1 E2]. destruct (Hlim Ha Hb) as [E3 E4].
      split; congruence.
    + intros Hr. apply IHrange, Hrange, Hr.
Qed.



Lemma scan_environment_without_bare_entry (envp : list string) :
  forall config_path,
    ~ In ENV_PREFIX envp -> scan_environment envp config_path = Some config_path.
Proof.
  induction envp as [|e envp IH]; intros config_path Hin;
    cbn [scan_environment]; [reflexivity|].
  destruct (strncmp_eq ENV_PREFIX e 16) eqn:E.
  - apply env_prefix_matches_only_itself in E. subst e.
    exfalso. apply Hin. left. reflexivity.
  - apply IH. intros H. apply Hin. right. exact H.
Qed.

(** X25: the built-in configuration path.  Without [--conf] among the
    arguments, and with no entry in the environment that is the bare
    [INZOWN_BTN_CFG=] (the one entry the 16-byte comparison accepts, and
    for which [main] reads behind the end of the entry), [main] either
    returns early from the options or calls [run] with the path
    [/etc/inzown/button.conf]: the other options, and every
    [INZOWN_BTN_CFG] entry with a value, leave the path as it is. *)
Theorem default_path_without_conf
        (fs : filesystem) (argv envp : list string) :
  ~ In "--conf" (tl argv) ->
  ~ In "INZOWN_BTN_CFG=" envp ->
  (exists code, main fs argv envp = MainReturn code) \/
  (exists g, main fs argv envp = MainRun g /\
             g_config_path g = "/etc/inzown/button.conf").
Proof.
  intros Hconf Henv. unfold main.
  pose proof (parse_args_ok (List.length (tl argv)) (tl argv)
                (mkArgState initial_globals false false) (le_n _)) as H.
  destruct (parse_args (tl argv) (mkArgState initial_globals false false))
    as [c | st]; [left; eexists; reflexivity|].
  right. destruct H as [Hc _]. destruct (Hc Hconf) as [Hspec Hpath].
  cbn [conf_path_specified ar_globals] in Hspec, Hpath.
  rewrite Hspec. cbn [negb].
  rewrite (scan_environment_without_bare_entry envp _ Henv).
  destruct (negb (click_count_limit_specified st)).
  - destruct (read_config_uint _ _ _ _) as [b limit]. eexists.
    split; [reflexivity|].
    cbn [set_click_count_limit set_config_path g_config_path]. exact Hpath.
  - eexists. split; [reflexivity|].
    cbn [set_config_path g_config_path]. exact Hpath.
Qed.

Lemma default_path_without_conf_witness :
  let argv := ["inzown-btn"; "--full-time"; "-n"; "3"; "--active-low"] in
  let envp := ["INZOWN_BTN_CFG=/tmp/b.conf"; "HOME=/root"] in
  (exists code, main (fun _ => None) argv envp = MainReturn code) \/
  (exists g, main (fun _ => None) argv envp = MainRun g /\
             g_config_path g = "/etc/inzown/button.conf").
Proof.
  cbv zeta.
  apply (default_path_without_conf (fun _ => None)
           ["inzown-btn"; "--full-time"; "-n"; "3"; "--active-low"]
           ["INZOWN_BTN_CFG=/tmp/b.conf"; "HOME=/root"]).
  - cbn [tl In]. intros [H | [H | [H | [H | H]]]]; try discriminate H. exact H.
  - cbn [In]. intros [H | [H | H]]; try discriminate H. exact H.
Defined.

Lemma read_config_uint_range
      (fs : filesystem) (conf key : string) (default_value : Z) :
  in_u32 default_value ->
  in_u32 (snd (read_config_uint fs conf key default_value)).
Proof.
  intros Hd. unfold read_config_uint.
  destruct (starts_with HASH _); [exact Hd|].
  destruct (parse_uint _) as [[|] x] eqn:E; cbn [snd]; [|exact Hd].
  apply (parse_uint_range _ _ E).
Qed.

(** X26: the click limit the loop runs with is an [unsigned] value:
    whatever the arguments, the environment and the configuration file
    are, it lies between 0 and 4294967295. *)
Theorem main_limit_is_unsigned
        (fs : filesystem) (argv envp : list string) (g : globals) :
  main fs argv envp = MainRun g -> in_u32 (g_click_count_limit g).
Proof.
  unfold main.
  pose proof (parse_args_ok (List.length (tl argv)) (tl argv)
                (mkArgState initial_globals false false) (le_n _)) as H.
  destruct (parse_args (tl argv) (mkArgState initial_globals false false))
    as [c | st]; [discriminate|].
  destruct H as (_ & _ & Hrange).
  assert (Hst : in_u32 (g_click_count_limit (ar_globals st))).
  { apply Hrange. unfold in_u32. split; vm_compute; discriminate. }
  destruct (if negb (conf_path_specified st) then _ else _) as [p|]; [|discriminate].
  destruct (negb (click_count_limit_specified st)).
  - pose proof (read_config_uint_range fs
                  (g_config_path (set_config_path (ar_globals st) p))
                  CLICK_COUNT_LIMIT_VALUE_NAME
                  (g_click_count_limit (set_config_path (ar_globals st) p))) as Hr.
    destruct (read_config_uint _ _ _ _) as [b limit]. intros E. inversion E; subst.
    cbn [set_click_count_limit g_click_count_limit]. apply Hr. exact Hst.
  - intros E. inversion E; subst. exact Hst.
Qed.

Lemma main_limit_is_unsigned_witness : in_u32 4294967295.
Proof.
  apply (main_limit_is_unsigned (fun _ => None)
           ["inzown-btn"; "-n"; "-1"] []
           (mkGlobals 17 PA_UNSPECIFIED "/etc/inzown/button.conf" false false
                      4294967295 1)).
  reflexivity.
Defined.

(** X27: without [-n] and [--click-count-limit] among the arguments the
    click limit is what [read_config_uint] gives for [CLICK_COUNT_LIMIT]
    in the configuration file, with the built-in 8 as its default. *)
Theorem limit_from_file_without_option
        (fs : filesystem) (argv envp : list string) (g : globals) :
  ~ In "-n" (tl argv) -> ~ In "--click-count-limit" (tl argv) ->
  main fs argv envp = MainRun g ->
  g_click_count_limit g =
  snd (read_config_uint fs (g_config_path g) CLICK_COUNT_LIMIT_VALUE_NAME
                        DEFAULT_CLICK_COUNT_LIMIT).
Proof.
  intros Hn Hl. unfold main.
  pose proof (parse_args_ok (List.length (tl argv)) (tl argv)
                (mkArgState initial_globals false false) (le_n _)) as H.
  destruct (parse_args (tl argv) (mkArgState initial_globals false false))
    as [c | st]; [discriminate|].
  destruct H as (_ & Hlim & _). destruct (Hlim Hn Hl) as [Hspec Hval].
  cbn [click_count_limit_specified ar_globals] in Hspec, Hval.
  destruct (if negb (conf_path_specified st) then _ else _) as [p|]; [|discriminate].
  rewrite Hspec. cbn [negb].
  cbn [set_config_path g_config_path g_click_count_limit]. rewrite Hval.
  destruct (read_config_uint fs p CLICK_COUNT_LIMIT_VALUE_NAME
                             (g_click_count_limit initial_globals))
    as [b limit] eqn:E.
  intros E'. inversion E'; subst.
  cbn [set_click_count_limit set_config_path g_click_count_limit g_config_path].
  change DEFAULT_CLICK_COUNT_LIMIT with (g_click_count_limit initial_globals).
  rewrite E. reflexivity.
Qed.

Lemma limit_from_file_without_option_witness :
  g_click_count_limit
    (mkGlobals 17 PA_UNSPECIFIED "/tmp/b.conf" false false 3 0) =
  snd (read_config_uint (single_file "/tmp/b.conf" "CLICK_COUNT_LIMIT 3")
         "/tmp/b.conf" CLICK_COUNT_LIMIT_VALUE_NAME DEFAULT_CLICK_COUNT_LIMIT).
Proof.
  apply (limit_from_file_without_option
           (single_file "/tmp/b.conf" "CLICK_COUNT_LIMIT 3")
           ["inzown-btn"; "-q"; "--conf"; "/tmp/b.conf"] []).
  - cbn [tl In]. intros [H | [H | [H | H]]]; try discriminate H. exact H.
  - cbn [tl In]. intros [H | [H | [H | H]]]; try discriminate H. exact H.
  - reflexivity.
Defined.

(** ** Clock *)

Lemma s64_id (x : Z) :
  -9223372036854775808 <= x <= 9223372036854775807 -> s64 x = x.
Proof. intros H. unfold s64. rewrite Z.mod_small by lia. lia. Qed.

Lemma get_timestamp_ms_exact (tp : timespec) :
  valid_timespec tp ->
  get_timestamp_ms tp = tv_sec tp * 1000 + tv_nsec tp ÷ 1000000 /\
  0 <= tv_nsec tp ÷ 1000000 <= 999.
Proof.
  unfold valid_timespec, get_timestamp_ms. intros [Hs Hn].
  pose proof (quot_euclid (tv_nsec tp) 1000000 ltac:(lia) ltac:(lia)) as Hq.
  assert (Hq0 : 0 <= tv_nsec tp ÷ 1000000) by (apply Z.quot_pos; lia).
  rewrite (s64_id (tv_sec tp * 1000)) by lia.
  rewrite (s64_id (tv_nsec tp ÷ 1000000)) by lia.
  rewrite s64_id by lia. unfold u64. rewrite Z.mod_small by lia. lia.
Qed.

(** X28: the millisecond clock follows the monotonic clock.  For two
    readings, the first not later than the second, the timestamps are in
    the same order, and their difference in [unsigned long long], which
    is what the loop takes as the hold time, is the number of whole
    milliseconds between them, without wrap-around. *)
Theorem timestamps_are_monotone (tp1 tp2 : timespec) :
  valid_timespec tp1 -> valid_timespec tp2 -> timespec_le tp1 tp2 ->
  get_timestamp_ms tp1 <= get_timestamp_ms tp2 /\
  u64 (get_timestamp_ms tp2 - get_timestamp_ms tp1)
  = (tv_sec tp2 * 1000 + tv_nsec tp2 ÷ 1000000)
    - (tv_sec tp1 * 1000 + tv_nsec tp1 ÷ 1000000).
Proof.
  intros H1 H2 Hle.
  destruct (get_timestamp_ms_exact tp1 H1) as [-> Hq1].
  destruct (get_timestamp_ms_exact tp2 H2) as [-> Hq2].
  unfold valid_timespec in *.
  assert (Hord : tv_sec tp1 * 1000 + tv_nsec tp1 ÷ 1000000
                 <= tv_sec tp2 * 1000 + tv_nsec tp2 ÷ 1000000).
  { destruct Hle as [Hlt | [Heq Hn]].
    - lia.
    - pose proof (quot_monotone (tv_nsec tp1) (tv_nsec tp2) 1000000
                    ltac:(lia) Hn). lia. }
  split; [exact Hord|]. unfold u64. apply Z.mod_small. lia.
Qed.

Lemma timestamps_are_monotone_witness :
  get_timestamp_ms (mkTimespec 12 999999999) <= get_timestamp_ms (mkTimespec 13 400000) /\
  u64 (get_timestamp_ms (mkTimespec 13 400000)
       - get_timestamp_ms (mkTimespec 12 999999999)) = 1.
Proof.
  apply (timestamps_are_monotone (mkTimespec 12 999999999) (mkTimespec 13 400000));
    unfold valid_timespec, timespec_le; simpl; lia.
Defined.

(** ** GPIO through sysfs *)

Lemma valid_pin_range (pin : Z) :
  gpio_is_pin_valid pin = true -> 0 <= pin < 100.
Proof.
  unfold gpio_is_pin_valid. intros H. apply Bool.andb_true_iff in H.
  rewrite Z.leb_le, Z.ltb_lt in H. exact H.
Qed.

Lemma valid_pin_text (pin : Z) (prefix suffix : string) :
  gpio_is_pin_valid pin = true ->
  (String.length prefix + String.length suffix <= 40)%nat ->
  itoa pin = utoa pin /\
  snprintf 3 (itoa pin) = utoa pin /\
  snprintf 64 (prefix ++ itoa pin ++ suffix) = (prefix ++ utoa pin ++ suffix)%string.
Proof.
  intros Hv Hlen. apply valid_pin_range in Hv.
  assert (Hi : itoa pin = utoa pin).
  { unfold itoa. replace (pin <? 0) with false by (symmetry; apply Z.ltb_ge; lia).
    reflexivity. }
  pose proof (utoa_two_digits pin ltac:(lia)) as Hd.
  rewrite Hi. split; [reflexivity|]. unfold snprintf. split.
  - apply take_all. change (Z.to_nat (3 - 1)) with 2%nat. exact Hd.
  - apply take_all. rewrite !string_length_append.
    change (Z.to_nat (64 - 1)) with 63%nat. lia.
Qed.

Section SysfsProperties.

Variable world : Type.
Variable os_stat : world -> string -> Z * world.
Variable os_open : world -> string -> open_mode -> Z * world.
Variable os_write : world -> Z -> string -> Z * world.
Variable os_close : world -> Z -> Z * world.
Variable os_usleep : world -> Z -> world.

Ltac run_io :=
  unfold io_bind, io_ret, sys_stat, sys_open, sys_write, sys_close, sys_usleep;
  repeat match goal with
         | |- context [os_stat ?w ?p] =>
             let r := fresh "st" in let w' := fresh "w" in
             destruct (os_stat w p) as [r w']
         | |- context [os_open ?w ?p ?m] =>
             let r := fresh "fd" in let w' := fresh "w" in
             destruct (os_open w p m) as [r w']
         | |- context [os_write ?w ?f ?b] =>
             let r := fresh "res" in let w' := fresh "w" in
             destruct (os_write w f b) as [r w']
         | |- context [os_close ?w ?f] =>
             let r := fresh "err" in let w' := fresh "w" in
             destruct (os_close w f) as [r w']
         | |- context [if ?b then _ else _] => destruct b
         end.

(** X29: what [gpio_export] does.  It returns -1, 0 or 1.  For a pin
    outside 0..99 it returns -1 without a call to the operating system.
    For a valid pin it only examines [/sys/class/gpio/gpio<pin>], opens
    [/sys/class/gpio/export] for writing and writes the decimal pin
    number, in full, with a NUL byte behind it; the result 0 comes from
    the examination alone, and the result 1 from the complete sequence
    examine, open, write, close, wait 100 ms. *)
Theorem gpio_export_calls (pin : Z) (w : world) :
  let '(r, log, w') :=
    gpio_export world os_stat os_open os_write os_close os_usleep pin w in
  (r = -1 \/ r = 0 \/ r = 1) /\
  (gpio_is_pin_valid pin = false -> r = -1 /\ log = [] /\ w' = w) /\
  Forall (export_call_ok "/sys/class/gpio/export" pin) log /\
  (r = 0 -> log = [SysStat ("/sys/class/gpio/gpio" ++ utoa pin)]) /\
  (r = 1 ->
   exists fd,
     log = [SysStat ("/sys/class/gpio/gpio" ++ utoa pin);
            SysOpen "/sys/class/gpio/export" O_WRONLY;
            SysWrite fd (utoa pin ++ NUL_BYTE);
            SysClose fd;
            SysUsleep 100000]).
Proof.
  unfold gpio_export.
  destruct (gpio_is_pin_valid pin) eqn:Hv; cbn [negb].
  - destruct (valid_pin_text pin "/sys/class/gpio/gpio" EmptyString Hv
                ltac:(simpl; lia)) as (Hi & Hs3 & Hs64).
    rewrite !string_append_nil in Hs64. rewrite Hs3, Hs64.
    run_io; cbn [app];
      (split; [auto|]); (split; [discriminate|]);
      (split; [repeat constructor|]);
      (split; intros Hr; try discriminate Hr; try reflexivity).
    eexists. reflexivity.
  - cbn. repeat split; auto; try discriminate.
Qed.


End SysfsProperties.
